(** * The interface registry of smcroute (src/ifvc.c)

    A shallow embedding of the interface table of the multicast routing
    daemon: the vector of [struct iface] records, its reconciliation
    against the interfaces reported by [getifaddrs], the lookups by name
    and the pattern iterators.

    Conventions of the embedding.
    - A C string is represented by its content, the characters that
      precede the terminating NUL; hence no character of a [string] is
      NUL, and the end of the [string] is where C reads the terminator.
    - A pointer into [iface_list] is the index of the slot it points to;
      the NULL pointer is [None].
    - [iface_list] holds the [num_ifaces] records in use.  The spare
      slots up to [num_ifaces_alloc] are zero bytes ([calloc] in
      [iface_init], [memset] after [realloc]), which is where a fresh
      record gets its zero address from.
    - [realloc], [calloc] and [strdup] are taken to succeed; a failing
      [getifaddrs] ends the process and is the outcome [Exited].
    - The capacity [num_ifaces_alloc] is a natural number, doubled
      without the wrap-around of the [unsigned int] of ifvc.c; no
      statement below depends on its value. *)

From stdpp Require Import base list strings.
From Stdlib Require Import Ascii ZArith Lia DecimalString.
From Equations.Prop Require Import Equations Logic.

Local Open Scope Z_scope.

(** ** C strings *)

Module CString.

(** The value of a character read as [unsigned char]. *)
Definition uchar (c : ascii) : Z := Z.of_N (N_of_ascii c).

Definition strlen (s : string) : Z := Z.of_nat (String.length s).

(** [strcmp]: the sign of the comparison, which is all the C standard
    promises.  The terminator is smaller than any character. *)
Fixpoint strcmp (s1 s2 : string) : Z :=
  match s1, s2 with
  | EmptyString, EmptyString => 0
  | EmptyString, String _ _ => -1
  | String _ _, EmptyString => 1
  | String c1 r1, String c2 r2 =>
      if Ascii.eqb c1 c2 then strcmp r1 r2
      else if uchar c1 <? uchar c2 then -1 else 1
  end.

(** [strncmp]: as [strcmp], over at most [n] characters. *)
Fixpoint strncmp (s1 s2 : string) (n : Z) {struct s1} : Z :=
  if n <=? 0 then 0
  else match s1, s2 with
       | EmptyString, EmptyString => 0
       | EmptyString, String _ _ => -1
       | String _ _, EmptyString => 1
       | String c1 r1, String c2 r2 =>
           if Ascii.eqb c1 c2 then strncmp r1 r2 (n - 1)
           else if uchar c1 <? uchar c2 then -1 else 1
       end.

(** [strchr]: the offset of the first occurrence of [c], if any. *)
Fixpoint strchr (s : string) (c : ascii) : option nat :=
  match s with
  | EmptyString => None
  | String a r => if Ascii.eqb a c then Some O else S <$> strchr r c
  end.

(** [*ptr = 0] for [ptr = s + p]: the string ends at offset [p]. *)
Definition terminate_at (s : string) (p : nat) : string := String.substring 0 p s.

(** [strlcpy (dst, src, size)]: [dst] receives at most [size - 1]
    characters of [src], and is always terminated. *)
Definition strlcpy (src : string) (size : nat) : string :=
  String.substring 0 (size - 1) src.

End CString.
Import CString.

(** ** Data *)

(** [unsigned int] is 32 bits wide. *)
Definition UINT_MAX : Z := 4294967295.
Definition to_uint (z : Z) : Z := z mod (UINT_MAX + 1).

Definition AF_INET : Z := 2.

(** [struct sockaddr], read as [struct sockaddr_in] when the family is
    [AF_INET]: [sin_addr] is the value of [sin_addr.s_addr]. *)
Record sockaddr := { sa_family : Z; sin_addr : Z }.

(** One node of the list returned by [getifaddrs]. *)
Record ifaddrs := { ifa_name : string; ifa_flags : Z; ifa_addr : option sockaddr }.

(** Modelled from the spec: [struct iface], whose declaration is in
    ifvc.h and not in ifvc.c.  The fields are those of the spec's
    interface record, under the names ifvc.c uses; the numeric fields
    are integers, without a width. *)
Record iface := {
  name : string;
  inaddr : Z;
  ifindex : Z;
  flags : Z;
  vif : Z;
  mif : Z;
  mrdisc : Z;
  threshold : Z
}.

(** Modelled from the spec: [struct ifmatch], the iterator state of the
    pattern matchers, whose declaration is in ifvc.h and not in ifvc.c.
    The spec's cursor is a position and a count of matches; both are
    numbers without a width. *)
Record ifmatch := { iter : nat; match_count : Z }.

(** The static variables of ifvc.c; [num_ifaces] is the length of
    [iface_list]. *)
Record registry := { iface_list : list iface; num_ifaces_alloc : nat }.

Definition num_ifaces (st : registry) : nat := length (iface_list st).

(** What ifvc.c takes from its headers and from the system: the size of
    the [name] array of [struct iface], the macro [DEFAULT_THRESHOLD],
    the function [if_nametoindex], and whether
    [HAVE_IPV6_MULTICAST_ROUTING] is defined. *)
Record platform := {
  sizeof_name : nat;
  DEFAULT_THRESHOLD : Z;
  if_nametoindex : string -> Z;
  HAVE_IPV6_MULTICAST_ROUTING : bool
}.

Inductive outcome (A : Type) : Type :=
| Returned (a : A)
| Exited (status : Z).
Arguments Returned {A} a.
Arguments Exited {A} status.

(** [iface->inaddr = a]. *)
Definition set_inaddr (i : iface) (a : Z) : iface :=
  {| name := name i; inaddr := a; ifindex := ifindex i; flags := flags i;
     vif := vif i; mif := mif i; mrdisc := mrdisc i; threshold := threshold i |}.

(** [ifa->ifa_addr && ifa->ifa_addr->sa_family == AF_INET], with the
    address that the cast to [struct sockaddr_in] then reads. *)
Definition inet_addr_of (ifa : ifaddrs) : option Z :=
  match ifa_addr ifa with
  | Some sa => if sa_family sa =? AF_INET then Some (sin_addr sa) else None
  | None => None
  end.

(** ** Lookup by name *)

(** The loop of [iface_find_by_name], over the slots from [i] on. *)
Fixpoint find_loop (nm : string) (l : list iface) (i : nat)
    (candidate : option nat) : option nat :=
  match l with
  | [] => candidate
  | iface :: l' =>
      if strcmp nm (name iface) =? 0 then
        if 0 <=? vif iface then Some i
        else find_loop nm l' (S i) (Some i)
      else find_loop nm l' (S i) candidate
  end.

Definition iface_find_by_name (ifname : option string) (st : registry)
    : option nat :=
  match ifname with
  | None => None
  | Some s =>
      let nm := s in
      let nm := match strchr nm ":"%char with
                | Some p => terminate_at nm p
                | None => nm
                end in
      find_loop nm (iface_list st) 0 None
  end.

(** ** Reconciliation *)

(** The record written into the slot [iface_list[num_ifaces]]. *)
Definition new_iface (pf : platform) (ifa : ifaddrs) : iface :=
  let nm := strlcpy (ifa_name ifa) (sizeof_name pf) in
  {| name := nm;
     inaddr := match inet_addr_of ifa with Some a => a | None => 0 end;
     ifindex := if_nametoindex pf nm;
     flags := ifa_flags ifa;
     vif := -1;
     mif := -1;
     mrdisc := 0;
     threshold := DEFAULT_THRESHOLD pf |}.

(** One turn of the loop of [iface_update], on the node [ifa]. *)
Definition iface_update_step (pf : platform) (refresh : bool)
    (acc : bool * registry) (ifa : ifaddrs) : bool * registry :=
  let '(change, st) := acc in
  match iface_find_by_name (Some (ifa_name ifa)) st with
  | Some i =>
      match iface_list st !! i, inet_addr_of ifa with
      | Some iface, Some a =>
          if inaddr iface =? 0 then
            (true, {| iface_list := <[i := set_inaddr iface a]> (iface_list st);
                      num_ifaces_alloc := num_ifaces_alloc st |})
          else (change, st)
      | _, _ => (change, st)
      end
  | None =>
      if refresh then (change, st)
      else
        let alloc := if Nat.eqb (num_ifaces st) (num_ifaces_alloc st)
                     then (num_ifaces_alloc st * 2)%nat
                     else num_ifaces_alloc st in
        (change, {| iface_list := iface_list st ++ [new_iface pf ifa];
                    num_ifaces_alloc := alloc |})
  end.

(** [iface_update]; [getifaddrs] is what the call of that name yields,
    [None] when it fails. *)
Definition iface_update (pf : platform) (getifaddrs : option (list ifaddrs))
    (refresh : bool) (st : registry) : outcome (bool * registry) :=
  match getifaddrs with
  | None => Exited 255
  | Some ifaddr =>
      Returned (fold_left (iface_update_step pf refresh) ifaddr (false, st))
  end.

Definition iface_init (pf : platform) (getifaddrs : option (list ifaddrs))
    (st : registry) : outcome registry :=
  let st := {| iface_list := []; num_ifaces_alloc := 1 |} in
  match iface_update pf getifaddrs false st with
  | Returned (_, st') => Returned st'
  | Exited status => Exited status
  end.

(** ** Pattern matching *)

Definition iface_match_init : ifmatch := {| iter := 0; match_count := 0 |}.

Definition ifname_is_wildcard (ifname : option string) : bool :=
  match ifname with
  | None => false
  | Some s =>
      match String.get 0 s with
      | None => false
      | Some _ =>
          match String.get (Z.to_nat (strlen s - 1)) s with
          | Some c => Ascii.eqb c "+"%char
          | None => false
          end
      end
  end.

(** The loop of [iface_match_by_name]; [rest] is the part of
    [iface_list] from [state->iter] on. *)
Fixpoint match_loop (ifname : string) (match_len : Z) (rest : list iface)
    (state : ifmatch) : option nat * ifmatch :=
  match rest with
  | [] => (None, state)
  | iface :: rest' =>
      if strncmp ifname (name iface) match_len =? 0 then
        (Some (iter state),
         {| iter := S (iter state); match_count := match_count state + 1 |})
      else
        match_loop ifname match_len rest'
          {| iter := S (iter state); match_count := match_count state |}
  end.

(** The local variable [match_len] of [iface_match_by_name], after the
    test on [ifname_is_wildcard]; the assignment converts the [size_t]
    value [strlen(ifname) - 1] to [unsigned int]. *)
Definition match_len (s : string) : Z :=
  if ifname_is_wildcard (Some s) then to_uint (strlen s - 1) else UINT_MAX.

Definition iface_match_by_name (ifname : option string) (state : ifmatch)
    (st : registry) : option nat * ifmatch :=
  match ifname with
  | None => (None, state)
  | Some s =>
      match_loop s (match_len s) (drop (iter state) (iface_list st)) state
  end.

Definition iface_get_vif (iface : option iface) : Z :=
  match iface with
  | None => -1
  | Some i => vif i
  end.

Definition iface_get_mif (pf : platform) (iface : option iface) : Z :=
  if HAVE_IPV6_MULTICAST_ROUTING pf then
    match iface with
    | None => -1
    | Some i => mif i
    end
  else -1.

(** A match of [match_loop] moves the iterator past the slot it returns,
    which lies in the part of the list that was scanned. *)
Lemma match_loop_Some ifname match_len rest state i state' :
  match_loop ifname match_len rest state = (Some i, state') ->
  (iter state <= i < iter state + length rest)%nat /\ iter state' = S i.
Proof.
  revert state. induction rest as [|r rest IH]; intros state; simpl.
  - discriminate.
  - destruct (strncmp ifname (name r) match_len =? 0).
    + intros [= <- <-]. simpl. lia.
    + intros H. apply IH in H. simpl in H. lia.
Qed.

Lemma iface_match_by_name_Some ifname state st i state' :
  iface_match_by_name ifname state st = (Some i, state') ->
  (iter state <= i < num_ifaces st)%nat /\ iter state' = S i.
Proof.
  unfold iface_match_by_name, num_ifaces. destruct ifname as [s|]; [|discriminate].
  intros H. apply match_loop_Some in H. rewrite length_drop in H. lia.
Qed.

(** The loop shared by [iface_match_vif_by_name] and
    [iface_match_mif_by_name], which differ in the getter [get] only.
    [found] is the argument of that name: [None] for a NULL pointer,
    else the content of the pointer variable it points to. *)
Equations? match_index_loop (get : option iface -> Z) (ifname : option string)
    (st : registry) (state : ifmatch) (found : option (option nat))
    : Z * ifmatch * option (option nat)
    by wf (num_ifaces st - iter state)%nat lt :=
  match_index_loop get ifname st state found
    with inspect (iface_match_by_name ifname state st) := {
    | exist _ (Some i, state') Hcall
        with inspect (0 <=? get (iface_list st !! i)) := {
        | exist _ true _ =>
            (get (iface_list st !! i), state',
             match found with
             | Some _ => Some (Some i)
             | None => None
             end);
        | exist _ false _ =>
            match_index_loop get ifname st
              {| iter := iter state'; match_count := match_count state' - 1 |}
              found };
    | exist _ (None, state') _ => (-1, state', found) }.
Proof.
  apply iface_match_by_name_Some in Hcall. simpl. lia.
Qed.

Definition iface_match_vif_by_name (ifname : option string) (state : ifmatch)
    (found : option (option nat)) (st : registry)
    : Z * ifmatch * option (option nat) :=
  match_index_loop iface_get_vif ifname st state found.

Definition iface_match_mif_by_name (pf : platform) (ifname : option string)
    (state : ifmatch) (found : option (option nat)) (st : registry)
    : Z * ifmatch * option (option nat) :=
  match_index_loop (iface_get_mif pf) ifname st state found.

(** ** Lookup by interface index and by virtual interface *)

(** The loop of [iface_find], over the slots from [i] on. *)
Fixpoint iface_find_loop (ifindex0 : Z) (l : list iface) (i : nat) : option nat :=
  match l with
  | [] => None
  | iface :: l' =>
      if ifindex iface =? ifindex0 then Some i
      else iface_find_loop ifindex0 l' (S i)
  end.

Definition iface_find (ifindex0 : Z) (st : registry) : option nat :=
  iface_find_loop ifindex0 (iface_list st) 0.

(** The loop of [iface_find_by_vif], over the slots from [i] on. *)
Fixpoint iface_find_by_vif_loop (vif0 : Z) (l : list iface) (i : nat) : option nat :=
  match l with
  | [] => None
  | iface :: l' =>
      if (0 <=? vif iface) && (vif iface =? vif0) then Some i
      else iface_find_by_vif_loop vif0 l' (S i)
  end.

Definition iface_find_by_vif (vif0 : Z) (st : registry) : option nat :=
  iface_find_by_vif_loop vif0 (iface_list st) 0.

(** ** The iterator over all interfaces *)

(** [iface_iterator]; [i] is the static variable of the function, which
    the call returns with its new value. *)
Definition iface_iterator (first : bool) (i : nat) (st : registry)
    : option nat * nat :=
  let i := if first then O else i in
  if (num_ifaces st <=? i)%nat then (None, i)
  else (Some i, S i).

(** ** The list of interfaces for a client *)

(** [%d]: a number in decimal, with a minus sign when negative. *)
Definition format_d (z : Z) : string := NilEmpty.string_of_int (Z.to_int z).

Fixpoint spaces (n : nat) : string :=
  match n with
  | O => EmptyString
  | S n' => String " "%char (spaces n')
  end.

(** [%-16s] and the like: the text, then blanks up to the width. *)
Definition left_justified (width : nat) (s : string) : string :=
  s +:+ spaces (width - String.length s).

(** [%6d] and the like: blanks up to the width, then the text. *)
Definition right_justified (width : nat) (s : string) : string :=
  spaces (width - String.length s) +:+ s.

(** The line of [iface_show] in full, and what [snprintf] leaves of it
    in [buf], an array of 256 characters. *)
Definition show_line (iface : iface) : string :=
  left_justified 16 (name iface) +:+ "  " +:+
  right_justified 6 (format_d (ifindex iface)) +:+ "  " +:+
  right_justified 3 (format_d (vif iface)) +:+ "  " +:+
  right_justified 3 (format_d (mif iface)) +:+ String "010"%char EmptyString.

Definition show_buf (iface : iface) : string :=
  String.substring 0 255 (show_line iface).

(** The value and the variable that [iface_iterator] returns when called
    without [first]. *)
Lemma iface_iterator_next i st :
  iface_iterator false i st =
    if (num_ifaces st <=? i)%nat then (None, i) else (Some i, S i).
Proof. reflexivity. Qed.

(** The loop of [iface_show], at its test, with [iface] the pointer the
    iterator returned last and [i] the variable of the iterator.  The
    function [ipc_send] is the one of ipc.h, acting on what is outside
    the process, [w]; it gets the descriptor and the characters of [buf]
    up to the terminator. *)
Equations? show_loop {W : Type} (ipc_send : Z -> string -> W -> Z * W)
    (sd : Z) (st : registry) (iface : option nat) (i : nat) (w : W)
    : Z * nat * W
    by wf ((num_ifaces st - i) + match iface with Some _ => 1 | None => 0 end)%nat lt :=
  show_loop ipc_send sd st None i w := (0, i, w);
  show_loop ipc_send sd st (Some j) i w
    with iface_list st !! j := {
    | None => (0, i, w);
    | Some r
        with inspect (ipc_send sd (show_buf r) w) := {
        | exist _ (rc, w') _
            with inspect (rc <? 0) := {
            | exist _ true _ => (-1, i, w');
            | exist _ false _
                with inspect (iface_iterator false i st) := {
                | exist _ (iface', i') Hnext =>
                    show_loop ipc_send sd st iface' i' w' } } } }.
Proof.
  rewrite iface_iterator_next in Hnext.
  destruct (Nat.leb_spec (num_ifaces st) i); injection Hnext as <- <-; lia.
Qed.

(** [iface_show], of builds with [ENABLE_CLIENT]; the result comes with
    the variable of the iterator and with what is outside the process. *)
Definition iface_show {W : Type} (ipc_send : Z -> string -> W -> Z * W)
    (sd detail : Z) (i : nat) (st : registry) (w : W) : Z * nat * W :=
  let '(iface, i) := iface_iterator true i st in
  show_loop ipc_send sd st iface i w.

(** ** What the statements below speak about *)

(** The name with everything from the first [':'] on removed. *)
Fixpoint base_name (s : string) : string :=
  match s with
  | EmptyString => EmptyString
  | String c r => if Ascii.eqb c ":"%char then EmptyString else String c (base_name r)
  end.

(** The comparison of [iface_match_by_name], on one record. *)
Definition name_matches (ifname : string) (r : iface) : bool :=
  strncmp ifname (name r) (match_len ifname) =? 0.

(** All fields but the address agree. *)
Definition same_but_addr (r r' : iface) : Prop :=
  name r' = name r /\ flags r' = flags r /\ ifindex r' = ifindex r /\
  vif r' = vif r /\ mif r' = mif r /\ mrdisc r' = mrdisc r /\
  threshold r' = threshold r.

(** The table after the loop of [iface_update] has gone through the
    nodes [ifaddr], and the value of [change] then. *)
Definition run (pf : platform) (refresh : bool) (ifaddr : list ifaddrs)
    (st : registry) : bool * registry :=
  fold_left (iface_update_step pf refresh) ifaddr (false, st).

Definition registry_after (pf : platform) (refresh : bool)
    (ifaddr : list ifaddrs) (st : registry) : registry :=
  snd (run pf refresh ifaddr st).

(** The test of [iface_update] that leads to [change = 1]: the node's
    name resolves to a record of the table, that record has no address,
    and the node carries an [AF_INET] address [a]. *)
Definition fills_address (st : registry) (ifa : ifaddrs) (i : nat) (a : Z) : Prop :=
  iface_find_by_name (Some (ifa_name ifa)) st = Some i /\
  (exists r, iface_list st !! i = Some r /\ inaddr r = 0) /\
  inet_addr_of ifa = Some a.


(** The last character of a string, and the string without it. *)
Fixpoint last_char (s : string) : option ascii :=
  match s with
  | EmptyString => None
  | String c EmptyString => Some c
  | String _ r => last_char r
  end.

Fixpoint drop_last (s : string) : string :=
  match s with
  | EmptyString => EmptyString
  | String _ EmptyString => EmptyString
  | String c r => String c (drop_last r)
  end.

(** How the loop may change the records of a table [l] into those of
    [l'] while it goes through the nodes [seen]: a record stays in its
    slot and keeps every field but the address, which changes only
    from zero, to the address of a node that resolves to the record. *)
Definition evolves (seen : list ifaddrs) (l l' : list iface) : Prop :=
  forall i r, l !! i = Some r ->
    exists r', l' !! i = Some r' /\ same_but_addr r r' /\
      (inaddr r' = inaddr r \/
       (inaddr r = 0 /\
        exists ifa, ifa ∈ seen /\ inet_addr_of ifa = Some (inaddr r') /\
                    base_name (ifa_name ifa) = name r)).

(** What an iterator over virtual interfaces, [next], does when it reads
    the index of a record with [index]. *)
Definition skips_unassigned (index : iface -> Z)
    (next : option string -> ifmatch -> option (option nat) -> registry ->
            Z * ifmatch * option (option nat)) : Prop :=
  forall pat state found st,
    (* a match by name without index is skipped, and the count that
       the matcher incremented is back to what it was *)
    (forall i r state',
       iface_match_by_name (Some pat) state st = (Some i, state') ->
       iface_list st !! i = Some r -> index r < 0 ->
       match_count state' = match_count state + 1 /\
       next (Some pat) state found st =
         next (Some pat) {| iter := iter state'; match_count := match_count state |}
              found st) /\
    (* the first match by name with an index ends the call *)
    (forall i r,
       iface_list st !! i = Some r -> (iter state <= i)%nat ->
       name_matches pat r = true -> 0 <= index r ->
       (forall j r', (iter state <= j < i)%nat -> iface_list st !! j = Some r' ->
                     name_matches pat r' = true -> index r' < 0) ->
       next (Some pat) state found st =
         (index r,
          {| iter := S i; match_count := match_count state + 1 |},
          match found with Some _ => Some (Some i) | None => None end)) /\
    (* without such a match the call returns -1 *)
    ((forall j r, (iter state <= j)%nat -> iface_list st !! j = Some r ->
                  name_matches pat r = true -> index r < 0) ->
     next (Some pat) state found st =
       (-1,
        {| iter := Nat.max (iter state) (num_ifaces st);
           match_count := match_count state |},
        found)) /\
    (* as does a call without pattern *)
    next None state found st = (-1, state, found).

(** The calls of [ipc_send] on the lines [bufs] in turn, up to the first
    that fails: the result, the number of calls, and what is outside the
    process after them. *)
Fixpoint send_all {W : Type} (ipc_send : Z -> string -> W -> Z * W) (sd : Z)
    (bufs : list string) (w : W) : Z * nat * W :=
  match bufs with
  | [] => (0, O, w)
  | buf :: rest =>
      let '(rc, w') := ipc_send sd buf w in
      if rc <? 0 then (-1, 1%nat, w')
      else let '(r, n, w'') := send_all ipc_send sd rest w' in (r, S n, w'')
  end.

(** Calls of [iface_iterator] in a row, one for each element of
    [firsts], which gives the argument of the call: the values returned,
    and the variable of the iterator after the last call. *)
Fixpoint iterator_calls (firsts : list bool) (i : nat) (st : registry)
    : list (option nat) * nat :=
  match firsts with
  | [] => ([], i)
  | first :: rest =>
      let '(iface, i') := iface_iterator first i st in
      let '(ifaces, i'') := iterator_calls rest i' st in
      (iface :: ifaces, i'')
  end.

(** No two records share a name without colon. *)
Definition names_unique (l : list iface) : Prop :=
  forall i j r r', l !! i = Some r -> l !! j = Some r' ->
    name r = name r' -> strchr (name r) ":"%char = None -> i = j.

(** The slots, in table order and numbered from [k], of the records of
    [l] that [iface_match_by_name] takes for a match of [ifname]. *)
Fixpoint matching_slots (ifname : string) (l : list iface) (k : nat) : list nat :=
  match l with
  | [] => []
  | r :: l' =>
      if name_matches ifname r then k :: matching_slots ifname l' (S k)
      else matching_slots ifname l' (S k)
  end.

(** [n] calls of [iface_match_by_name] in a row on one iterator state:
    the values returned, and the state after the last call. *)
Fixpoint match_calls (ifname : option string) (st : registry) (n : nat)
    (state : ifmatch) : list (option nat) * ifmatch :=
  match n with
  | O => ([], state)
  | S n' =>
      let '(iface, state') := iface_match_by_name ifname state st in
      let '(ifaces, state'') := match_calls ifname st n' state' in
      (iface :: ifaces, state'')
  end.

(** ** Scenarios *)

Module Scenario.

(** A Linux build with IPv6 multicast routing: sixteen characters and
    the terminator for a name, a threshold of one.  The index of an
    interface stands for what the system would answer; here it is the
    length of the name. *)
Definition linux : platform :=
  {| sizeof_name := 17;
     DEFAULT_THRESHOLD := 1;
     if_nametoindex := fun s => strlen s;
     HAVE_IPV6_MULTICAST_ROUTING := true |}.

Definition no_ipv6 : platform :=
  {| sizeof_name := 17;
     DEFAULT_THRESHOLD := 1;
     if_nametoindex := fun s => strlen s;
     HAVE_IPV6_MULTICAST_ROUTING := false |}.

(** A record as [iface_update] creates it, then given the indices
    [v] and [m] by the registration of virtual interfaces. *)
Definition rec (n : string) (a v m : Z) : iface :=
  {| name := n; inaddr := a; ifindex := strlen n; flags := 0;
     vif := v; mif := m; mrdisc := 0; threshold := 1 |}.

Definition table (l : list iface) : registry :=
  {| iface_list := l; num_ifaces_alloc := 4 |}.

Definition node (n : string) (a : option Z) : ifaddrs :=
  {| ifa_name := n; ifa_flags := 0;
     ifa_addr := match a with
                 | Some a => Some {| sa_family := AF_INET; sin_addr := a |}
                 | None => None
                 end |}.

(** The table as [iface_init] sets it up before it calls
    [iface_update]. *)
Definition empty : registry := {| iface_list := []; num_ifaces_alloc := 1 |}.

Definition eth_wlan : registry :=
  table [rec "eth0" 0 (-1) (-1); rec "eth1" 0 (-1) (-1); rec "wlan0" 0 (-1) (-1)].

Definition eth0_eth01 : registry :=
  table [rec "eth0" 0 (-1) (-1); rec "eth01" 0 (-1) (-1)].

Definition only_eth0 : registry := table [rec "eth0" 0 (-1) (-1)].

End Scenario.

(** ** Facts about the string functions *)

Section StringFacts.

Lemma strcmp_refl s : strcmp s s = 0.
Proof. induction s as [|c s IH]; simpl; [done|]. by rewrite Ascii.eqb_refl. Qed.

Lemma strcmp_0 s1 s2 : strcmp s1 s2 = 0 <-> s1 = s2.
Proof.
  split; [|intros ->; apply strcmp_refl].
  revert s2. induction s1 as [|c1 r1 IH]; intros [|c2 r2]; simpl; try done.
  destruct (Ascii.eqb_spec c1 c2) as [->|Hne].
  - intros H. by rewrite (IH _ H).
  - destruct (uchar c1 <? uchar c2); discriminate.
Qed.

Lemma strcmp_eqb s1 s2 : (strcmp s1 s2 =? 0) = bool_decide (s1 = s2).
Proof.
  case_bool_decide as H.
  - apply Z.eqb_eq. by apply strcmp_0.
  - apply Z.eqb_neq. by rewrite strcmp_0.
Qed.

Lemma strncmp_refl s n : strncmp s s n = 0.
Proof.
  revert n. induction s as [|c s IH]; intros n; simpl.
  - by destruct (n <=? 0).
  - destruct (n <=? 0); [done|]. by rewrite Ascii.eqb_refl.
Qed.

(** With a bound that exceeds the length of one of the strings,
    [strncmp] is [strcmp]. *)
Lemma strncmp_long s1 s2 n :
  strlen s1 < n -> strncmp s1 s2 n = 0 -> s1 = s2.
Proof.
  unfold strlen. revert s2 n.
  induction s1 as [|c1 r1 IH]; intros [|c2 r2] n Hn; simpl in *;
    destruct (Z.leb_spec n 0) as [Hle|Hlt]; try done; try lia.
  destruct (Ascii.eqb_spec c1 c2) as [->|Hne].
  - intros H. apply IH in H; [by subst|lia].
  - destruct (uchar c1 <? uchar c2); discriminate.
Qed.

(** With the bound [strlen p], [strncmp] tests that [p] is a prefix,
    whatever follows [p] in the first string. *)
Lemma strncmp_cons c1 r1 c2 r2 n :
  0 < n ->
  strncmp (String c1 r1) (String c2 r2) n =
    if Ascii.eqb c1 c2 then strncmp r1 r2 (n - 1)
    else if uchar c1 <? uchar c2 then -1 else 1.
Proof. intros Hn. simpl. destruct (Z.leb_spec n 0); [lia|done]. Qed.

Lemma strncmp_prefix p q s :
  (strncmp (p +:+ q) s (strlen p) =? 0) = String.prefix p s.
Proof.
  unfold strlen. revert s. induction p as [|c p IH]; intros s.
  - simpl. destruct q, s; reflexivity.
  - destruct s as [|c' s].
    + simpl. by destruct (Z.leb_spec (Z.pos (Pos.of_succ_nat (String.length p))) 0); [lia|].
    + change (String c p +:+ q) with (String c (p +:+ q)).
      rewrite strncmp_cons by (simpl; lia).
      replace (Z.of_nat (String.length (String c p)) - 1)
        with (Z.of_nat (String.length p)) by (simpl; lia).
      simpl String.prefix.
      destruct (Ascii.eqb_spec c c') as [->|Hne].
      * rewrite IH. destruct (ascii_dec c' c'); [done|congruence].
      * destruct (ascii_dec c c'); [congruence|].
        by destruct (uchar c <? uchar c').
Qed.

Lemma strchr_base_name s :
  match strchr s ":"%char with
  | Some p => terminate_at s p
  | None => s
  end = base_name s.
Proof.
  unfold terminate_at. induction s as [|c s IH]; simpl; [done|].
  destruct (Ascii.eqb c ":"%char); simpl; [done|].
  destruct (strchr s ":"%char) as [p|]; simpl; by rewrite <- IH.
Qed.

Lemma strchr_None_base_name s : strchr s ":"%char = None -> base_name s = s.
Proof. intros H. rewrite <- strchr_base_name. by rewrite H. Qed.

Lemma strchr_base_name_None s : strchr (base_name s) ":"%char = None.
Proof.
  induction s as [|c s IH]; simpl; [done|].
  destruct (Ascii.eqb c ":"%char) eqn:E; simpl; [done|].
  by rewrite E, IH.
Qed.

Lemma strlcpy_fits s size :
  (String.length s < size)%nat -> strlcpy s size = s.
Proof.
  unfold strlcpy. intros H.
  assert (forall k, (String.length s <= k)%nat -> String.substring 0 k s = s) as Hsub.
  { clear. induction s as [|c s IH]; intros [|k] Hk; simpl in *; try done; try lia.
    rewrite IH; [done|lia]. }
  apply Hsub. lia.
Qed.

Lemma length_append s1 s2 :
  String.length (s1 +:+ s2) = (String.length s1 + String.length s2)%nat.
Proof. induction s1 as [|c s1 IH]; simpl; [done|]. by rewrite IH. Qed.

Lemma get_append_last p c : String.get (String.length p) (p +:+ String c "") = Some c.
Proof. induction p as [|a p IH]; simpl; [done|]. exact IH. Qed.

(** The test of the source and the shape "something, then a plus". *)
Lemma ifname_is_wildcard_true s :
  ifname_is_wildcard (Some s) = true <-> exists p, s = p +:+ "+".
Proof.
  unfold ifname_is_wildcard, strlen. split.
  - destruct s as [|c s]; [done|]. cbn [String.get].
    replace (Z.to_nat (Z.of_nat (String.length (String c s)) - 1))
      with (String.length s) by (simpl; lia).
    revert c. induction s as [|c' s IH]; intros c; simpl.
    + destruct (Ascii.eqb_spec c "+"%char) as [->|]; [|done]. by exists "".
    + intros H. destruct (IH c' H) as [p Hp]. exists (String c p).
      simpl. by rewrite Hp.
  - intros [p ->]. rewrite length_append. simpl.
    replace (Z.to_nat (Z.of_nat (String.length p + 1) - 1)) with (String.length p) by lia.
    rewrite get_append_last.
    destruct p; simpl; done.
Qed.

End StringFacts.

(** ** Facts about the lookup by name *)

Section FindFacts.

(** What [find_loop] returns, for a scan that starts at slot [k] with
    the candidate [cand]: the first record of the name with a virtual
    interface, else the last record of the name, else [cand]. *)
Lemma find_loop_spec nm l k cand :
  match find_loop nm l k cand with
  | Some j =>
      (cand = Some j /\ Forall (fun r => name r <> nm) l) \/
      (exists j0 r, j = (k + j0)%nat /\ l !! j0 = Some r /\ name r = nm /\
         ((0 <= vif r /\
           forall j' r', (j' < j0)%nat -> l !! j' = Some r' -> name r' = nm -> vif r' < 0)
          \/
          (vif r < 0 /\
           forall j' r', l !! j' = Some r' -> name r' = nm -> vif r' < 0 /\ (j' <= j0)%nat)))
  | None => cand = None /\ Forall (fun r => name r <> nm) l
  end.
Proof.
  revert k cand. induction l as [|r l IH]; intros k cand; simpl.
  - destruct cand; [left|]; by split.
  - rewrite strcmp_eqb. case_bool_decide as Hnm.
    + destruct (Z.leb_spec 0 (vif r)) as [Hv|Hv].
      * right. exists O, r. repeat split; [lia|done|].
        left. split; [done|]. intros; lia.
      * specialize (IH (S k) (Some k)).
        destruct (find_loop nm l (S k) (Some k)) as [j|]; [|by destruct IH].
        right. destruct IH as [[[= <-] Hall]|(j0 & r' & -> & Hl & Hn & Hcase)].
        -- exists O, r. repeat split; [lia|done|].
           right. split; [done|]. intros [|j'] r' Hl' Hn'; simpl in Hl'.
           ++ injection Hl' as <-. split; [done|lia].
           ++ rewrite Forall_lookup in Hall. by destruct (Hall _ _ Hl').
        -- exists (S j0), r'. repeat split; [lia|done|done|].
           destruct Hcase as [[Hv' Hfirst]|[Hv' Hlast]]; [left|right];
             (split; [done|]).
           ++ intros [|j'] r'' Hlt Hl' Hn'; simpl in Hl'.
              ** by injection Hl' as <-.
              ** apply (Hfirst j'); [lia|done..].
           ++ intros [|j'] r'' Hl' Hn'; simpl in Hl'.
              ** injection Hl' as <-. split; [done|lia].
              ** destruct (Hlast _ _ Hl' Hn'). split; [done|lia].
    + specialize (IH (S k) cand).
      destruct (find_loop nm l (S k) cand) as [j|].
      * destruct IH as [[-> Hall]|(j0 & r' & -> & Hl & Hn & Hcase)].
        -- left. split; [done|]. constructor; [congruence|done].
        -- right. exists (S j0), r'. repeat split; [lia|done|done|].
           destruct Hcase as [[Hv' Hfirst]|[Hv' Hlast]]; [left|right];
             (split; [done|]).
           ++ intros [|j'] r'' Hlt Hl' Hn'; simpl in Hl'.
              ** injection Hl' as <-. congruence.
              ** apply (Hfirst j'); [lia|done..].
           ++ intros [|j'] r'' Hl' Hn'; simpl in Hl'.
              ** injection Hl' as <-. congruence.
              ** destruct (Hlast _ _ Hl' Hn'). split; [done|lia].
      * destruct IH as [-> Hall]. split; [done|].
        constructor; [congruence|done].
Qed.

Lemma iface_find_by_name_unfold s st :
  iface_find_by_name (Some s) st = find_loop (base_name s) (iface_list st) 0 None.
Proof. unfold iface_find_by_name. by rewrite strchr_base_name. Qed.

(** A lookup that succeeds points into the table, at a record of the
    base name. *)
Lemma iface_find_by_name_Some s st i :
  iface_find_by_name (Some s) st = Some i ->
  exists r, iface_list st !! i = Some r /\ name r = base_name s.
Proof.
  rewrite iface_find_by_name_unfold. intros H.
  pose proof (find_loop_spec (base_name s) (iface_list st) 0 None) as Hs.
  rewrite H in Hs. destruct Hs as [[? _]|(j0 & r & -> & Hl & Hn & _)]; [done|].
  by exists r.
Qed.

(** A lookup fails exactly when no record has the base name. *)
Lemma iface_find_by_name_None s st :
  iface_find_by_name (Some s) st = None <->
  Forall (fun r => name r <> base_name s) (iface_list st).
Proof.
  rewrite iface_find_by_name_unfold.
  pose proof (find_loop_spec (base_name s) (iface_list st) 0 None) as Hs.
  split.
  - intros H. rewrite H in Hs. by destruct Hs.
  - intros Hall. destruct (find_loop _ _ _ _) as [j|]; [|done].
    destruct Hs as [[? _]|(j0 & r & _ & Hl & Hn & _)]; [done|].
    rewrite Forall_lookup in Hall. by destruct (Hall _ _ Hl).
Qed.


End FindFacts.

(** ** Facts about the reconciliation loop *)

Section UpdateFacts.

Variable pf : platform.

Lemma same_but_addr_refl r : same_but_addr r r.
Proof. by repeat split. Qed.

Lemma same_but_addr_set r a : same_but_addr r (set_inaddr r a).
Proof. by repeat split. Qed.

Lemma same_but_addr_trans r1 r2 r3 :
  same_but_addr r1 r2 -> same_but_addr r2 r3 -> same_but_addr r1 r3.
Proof. unfold same_but_addr. intuition congruence. Qed.

(** The turn of the loop that finds a record without address, for a
    node with an [AF_INET] address. *)
Lemma step_fill refresh c st ifa i a :
  fills_address st ifa i a ->
  exists r, iface_list st !! i = Some r /\ inaddr r = 0 /\
    iface_update_step pf refresh (c, st) ifa =
      (true, {| iface_list := <[i := set_inaddr r a]> (iface_list st);
                num_ifaces_alloc := num_ifaces_alloc st |}).
Proof.
  intros (Hf & (r & Hr & Ha) & Hi). exists r. repeat split; [done..|].
  unfold iface_update_step. rewrite Hf, Hr, Hi, Ha. done.
Qed.

(** The turn of the loop that finds a record and leaves it alone. *)
Lemma step_skip refresh c st ifa i :
  iface_find_by_name (Some (ifa_name ifa)) st = Some i ->
  (forall a, ~ fills_address st ifa i a) ->
  iface_update_step pf refresh (c, st) ifa = (c, st).
Proof.
  intros Hf Hno. unfold iface_update_step. rewrite Hf.
  destruct (iface_list st !! i) as [r|] eqn:Hr; [|done].
  destruct (inet_addr_of ifa) as [a|] eqn:Hi; [|done].
  destruct (Z.eqb_spec (inaddr r) 0) as [Ha|]; [|done].
  destruct (Hno a). repeat split; [done| |done]. by exists r.
Qed.

(** The turn of the loop for a name that is not in the table. *)
Lemma step_miss refresh c st ifa :
  iface_find_by_name (Some (ifa_name ifa)) st = None ->
  iface_update_step pf refresh (c, st) ifa =
    if refresh then (c, st)
    else (c, {| iface_list := iface_list st ++ [new_iface pf ifa];
                num_ifaces_alloc :=
                  if Nat.eqb (num_ifaces st) (num_ifaces_alloc st)
                  then (num_ifaces_alloc st * 2)%nat
                  else num_ifaces_alloc st |}).
Proof. intros Hf. unfold iface_update_step. by rewrite Hf. Qed.

(** The three turns above are all there is. *)
Lemma step_cases st ifa :
  (exists i a, fills_address st ifa i a) \/
  (exists i, iface_find_by_name (Some (ifa_name ifa)) st = Some i /\
             forall a, ~ fills_address st ifa i a) \/
  iface_find_by_name (Some (ifa_name ifa)) st = None.
Proof.
  destruct (iface_find_by_name (Some (ifa_name ifa)) st) as [i|] eqn:Hf; [|by right; right].
  destruct (iface_find_by_name_Some _ _ _ Hf) as (r & Hr & _).
  destruct (inet_addr_of ifa) as [a|] eqn:Hi.
  - destruct (Z.eq_dec (inaddr r) 0) as [Ha|Ha].
    + left. exists i, a. repeat split; [done| |done]. by exists r.
    + right; left. exists i. split; [done|].
      intros a' (_ & (r' & Hr' & Ha') & _). congruence.
  - right; left. exists i. split; [done|].
    intros a' (_ & _ & Hi'). congruence.
Qed.

Lemma run_snoc refresh l x st :
  run pf refresh (l ++ [x]) st = iface_update_step pf refresh (run pf refresh l st) x.
Proof. unfold run. by rewrite fold_left_app. Qed.

Lemma run_app refresh l1 l2 st :
  run pf refresh (l1 ++ l2) st =
  fold_left (iface_update_step pf refresh) l2 (run pf refresh l1 st).
Proof. unfold run. by rewrite fold_left_app. Qed.

(** The table that the loop leaves does not depend on the value of
    [change] it started the turn with. *)
Lemma step_snd refresh c c' st ifa :
  snd (iface_update_step pf refresh (c, st) ifa) =
  snd (iface_update_step pf refresh (c', st) ifa).
Proof.
  unfold iface_update_step.
  destruct (iface_find_by_name _ _); [|by destruct refresh].
  destruct (_ !! _); [|done]. destruct (inet_addr_of _); [|done].
  by destruct (_ =? _).
Qed.

Lemma fold_snd refresh l c c' st :
  snd (fold_left (iface_update_step pf refresh) l (c, st)) =
  snd (fold_left (iface_update_step pf refresh) l (c', st)).
Proof.
  revert c c' st. induction l as [|x l IH]; intros c c' st; cbn [fold_left]; [done|].
  pose proof (step_snd refresh c c' st x) as Hs.
  destruct (iface_update_step pf refresh (c, st) x) as [c1 st1].
  destruct (iface_update_step pf refresh (c', st) x) as [c2 st2].
  simpl in Hs. subst st2. apply IH.
Qed.

(** The table after a longer list of nodes is the table after the
    rest of the nodes, from the table after the first ones. *)
Lemma registry_after_app refresh l1 l2 st :
  registry_after pf refresh (l1 ++ l2) st =
  registry_after pf refresh l2 (registry_after pf refresh l1 st).
Proof.
  unfold registry_after. rewrite run_app. unfold run at 2.
  destruct (run pf refresh l1 st) as [c st1]. simpl. apply fold_snd.
Qed.

Lemma registry_after_one refresh x st :
  registry_after pf refresh [x] st =
  snd (iface_update_step pf refresh (false, st) x).
Proof. done. Qed.


Lemma evolves_refl seen l : evolves seen l l.
Proof. intros i r Hr. exists r. split; [done|]. split; [apply same_but_addr_refl|by left]. Qed.

Lemma evolves_trans s1 s2 l1 l2 l3 :
  evolves s1 l1 l2 -> evolves s2 l2 l3 -> evolves (s1 ++ s2) l1 l3.
Proof.
  intros H12 H23 i r Hr.
  destruct (H12 i r Hr) as (r2 & Hr2 & Hs2 & Ha2).
  destruct (H23 i r2 Hr2) as (r3 & Hr3 & Hs3 & Ha3).
  exists r3. split; [done|]. split; [by eapply same_but_addr_trans|].
  destruct Ha3 as [Ha3|(Hz & ifa & Hin & Hinet & Hnm)].
  - destruct Ha2 as [Ha2|(Hz & ifa & Hin & Hinet & Hnm)]; [left; congruence|].
    right. split; [done|]. exists ifa. rewrite Ha3.
    repeat split; [|done..]. apply elem_of_app. by left.
  - right. split.
    + destruct Ha2 as [Ha2|[Hz' _]]; congruence.
    + exists ifa. repeat split; [|done|].
      * apply elem_of_app. by right.
      * destruct Hs2 as [Hn _]. congruence.
Qed.

Lemma step_evolves refresh c st x :
  evolves [x] (iface_list st)
    (iface_list (snd (iface_update_step pf refresh (c, st) x))).
Proof.
  destruct (step_cases st x) as [(i & a & Hf)|[(i & Hf & Hno)|Hf]].
  - destruct (step_fill refresh c st x i a Hf) as (r & Hr & Ha & ->). simpl.
    destruct Hf as (Hfind & _ & Hinet).
    destruct (iface_find_by_name_Some _ _ _ Hfind) as (r0 & Hr0 & Hn0).
    assert (r0 = r) as -> by congruence.
    intros j rj Hj. destruct (decide (j = i)) as [->|Hne].
    + assert (rj = r) as -> by congruence.
      exists (set_inaddr r a). split.
      { apply list_lookup_insert_eq. by eapply lookup_lt_Some. }
      split; [apply same_but_addr_set|]. right. split; [done|].
      exists x. repeat split; [apply list_elem_of_singleton; done|done..].
    + exists rj. rewrite list_lookup_insert_ne by done.
      split; [done|]. split; [apply same_but_addr_refl|by left].
  - rewrite (step_skip refresh c st x i Hf Hno). apply evolves_refl.
  - rewrite (step_miss refresh c st x Hf). destruct refresh; simpl; [apply evolves_refl|].
    intros j rj Hj. exists rj. split.
    { rewrite lookup_app_l; [done|]. by eapply lookup_lt_Some. }
    split; [apply same_but_addr_refl|by left].
Qed.

Lemma fold_evolves refresh l acc :
  evolves l (iface_list (snd acc))
    (iface_list (snd (fold_left (iface_update_step pf refresh) l acc))).
Proof.
  revert acc. induction l as [|x l IH]; intros [c st]; cbn [fold_left].
  - apply evolves_refl.
  - change (x :: l) with ([x] ++ l).
    eapply evolves_trans; [apply (step_evolves refresh c st x)|].
    apply IH.
Qed.

Lemma registry_after_evolves refresh l st :
  evolves l (iface_list st) (iface_list (registry_after pf refresh l st)).
Proof. apply (fold_evolves refresh l (false, st)). Qed.

(** The table never shrinks, and keeps its size and its capacity when
    only addresses are refreshed. *)
Lemma step_length refresh c st x :
  let st' := snd (iface_update_step pf refresh (c, st) x) in
  (num_ifaces st <= num_ifaces st' <= S (num_ifaces st))%nat /\
  (refresh = true ->
   num_ifaces st' = num_ifaces st /\ num_ifaces_alloc st' = num_ifaces_alloc st).
Proof.
  unfold num_ifaces.
  destruct (step_cases st x) as [(i & a & Hf)|[(i & Hf & Hno)|Hf]].
  - destruct (step_fill refresh c st x i a Hf) as (r & Hr & Ha & ->). simpl.
    rewrite length_insert. lia.
  - rewrite (step_skip refresh c st x i Hf Hno). simpl. lia.
  - rewrite (step_miss refresh c st x Hf). destruct refresh; simpl.
    + lia.
    + rewrite length_app. simpl. split; [lia|done].
Qed.

Lemma fold_length refresh l acc :
  let st' := snd (fold_left (iface_update_step pf refresh) l acc) in
  (num_ifaces (snd acc) <= num_ifaces st')%nat /\
  (refresh = true ->
   num_ifaces st' = num_ifaces (snd acc) /\
   num_ifaces_alloc st' = num_ifaces_alloc (snd acc)).
Proof.
  cbv zeta. revert acc. induction l as [|x l IH]; intros [c st]; cbn [fold_left].
  - simpl. lia.
  - pose proof (step_length refresh c st x) as [Hlen Href].
    specialize (IH (iface_update_step pf refresh (c, st) x)).
    destruct IH as [IHlen IHref]. cbn [snd] in *. split; [lia|].
    intros Hr. destruct (Href Hr) as [E1 E2]. destruct (IHref Hr) as [E3 E4].
    split; congruence.
Qed.

(** A property of records that holds of the records created for the
    nodes, and that a change of address preserves, holds of the whole
    table if it held before. *)
Lemma fold_Forall refresh (P : iface -> Prop) l acc :
  (forall r a, P r -> P (set_inaddr r a)) ->
  (forall ifa, ifa ∈ l -> P (new_iface pf ifa)) ->
  Forall P (iface_list (snd acc)) ->
  Forall P (iface_list (snd (fold_left (iface_update_step pf refresh) l acc))).
Proof.
  intros Hset. revert acc. induction l as [|x l IH]; intros [c st] Hnew Hall;
    cbn [fold_left]; [done|].
  apply IH; [intros ifa Hin; apply Hnew; by right|].
  destruct (step_cases st x) as [(i & a & Hf)|[(i & Hf & Hno)|Hf]].
  - destruct (step_fill refresh c st x i a Hf) as (r & Hr & Ha & ->). simpl in *.
    apply Forall_insert; [done|]. apply Hset.
    rewrite Forall_lookup in Hall. by eapply Hall.
  - by rewrite (step_skip refresh c st x i Hf Hno).
  - rewrite (step_miss refresh c st x Hf). destruct refresh; simpl in *; [done|].
    apply Forall_app. split; [done|]. constructor; [|done].
    apply Hnew. by left.
Qed.

End UpdateFacts.

(** ** Facts about the pattern iterators *)

Section MatchFacts.

Lemma last_char_append s c : last_char s = Some c -> s = drop_last s +:+ String c "".
Proof.
  induction s as [|a s IH]; [done|].
  destruct s as [|b s]; [by intros [= ->]|].
  intros H. change (String a (String b s) = String a (drop_last (String b s) +:+ String c "")).
  f_equal. by apply IH.
Qed.

Lemma last_char_snoc p c : last_char (p +:+ String c "") = Some c.
Proof.
  induction p as [|a p IH]; [done|].
  change (last_char (String a (p +:+ String c "")) = Some c).
  destruct (p +:+ String c "") eqn:E; [by destruct p|]. exact IH.
Qed.

Lemma ifname_is_wildcard_last s :
  ifname_is_wildcard (Some s) = bool_decide (last_char s = Some "+"%char).
Proof.
  case_bool_decide as H.
  - apply ifname_is_wildcard_true. exists (drop_last s). by apply last_char_append.
  - destruct (ifname_is_wildcard (Some s)) eqn:E; [|done].
    apply ifname_is_wildcard_true in E as [p ->]. by rewrite last_char_snoc in H.
Qed.

Lemma strlen_nonneg s : 0 <= strlen s.
Proof. unfold strlen. lia. Qed.

(** Without a trailing plus the comparison is an equality of names,
    for a pattern shorter than [UINT_MAX] characters. *)
Lemma name_matches_exact pat r :
  last_char pat <> Some "+"%char -> strlen pat < UINT_MAX ->
  name_matches pat r = bool_decide (name r = pat).
Proof.
  intros Hlast Hlen. unfold name_matches, match_len.
  rewrite ifname_is_wildcard_last, bool_decide_eq_false_2 by done.
  case_bool_decide as H.
  - rewrite H, strncmp_refl. done.
  - apply Z.eqb_neq. intros Hc. apply strncmp_long in Hc; [|done]. congruence.
Qed.

(** With a trailing plus the comparison tests that the rest of the
    pattern is a prefix of the name, for a pattern of at most
    [UINT_MAX] characters. *)
Lemma name_matches_prefix pat r :
  last_char pat = Some "+"%char -> strlen pat <= UINT_MAX ->
  name_matches pat r = String.prefix (drop_last pat) (name r).
Proof.
  intros Hlast Hlen. unfold name_matches, match_len.
  rewrite ifname_is_wildcard_last, bool_decide_eq_true_2 by done.
  apply last_char_append in Hlast.
  assert (strlen pat - 1 = strlen (drop_last pat)) as Hl.
  { rewrite Hlast at 1. unfold strlen. rewrite length_append. simpl. lia. }
  rewrite Hl. unfold to_uint. rewrite Z.mod_small.
  - rewrite Hlast at 1. apply strncmp_prefix.
  - pose proof (strlen_nonneg (drop_last pat)). unfold UINT_MAX in *. lia.
Qed.

(** The loop returns the first record that compares equal. *)
Lemma match_loop_first s rest state j r :
  rest !! j = Some r ->
  (strncmp s (name r) (match_len s) =? 0) = true ->
  (forall j' r', (j' < j)%nat -> rest !! j' = Some r' ->
                 (strncmp s (name r') (match_len s) =? 0) = false) ->
  match_loop s (match_len s) rest state =
    (Some (iter state + j)%nat,
     {| iter := S (iter state + j); match_count := match_count state + 1 |}).
Proof.
  revert state j. induction rest as [|r0 rest IH]; intros state j Hj Hm Hbefore; [done|].
  destruct j as [|j]; simpl in Hj |- *.
  - injection Hj as ->. rewrite Hm. by rewrite Nat.add_0_r.
  - rewrite (Hbefore O r0) by (done || lia).
    rewrite (IH _ j Hj Hm); [simpl; do 3 f_equal; lia|].
    intros j' r' Hlt Hr'. apply (Hbefore (S j')); [lia|done].
Qed.

(** When no record compares equal, the loop runs to the end of the
    table. *)
Lemma match_loop_none s rest state :
  (forall j r, rest !! j = Some r ->
               (strncmp s (name r) (match_len s) =? 0) = false) ->
  match_loop s (match_len s) rest state =
    (None, {| iter := iter state + length rest; match_count := match_count state |}).
Proof.
  revert state. induction rest as [|r0 rest IH]; intros state Hall; simpl.
  - rewrite Nat.add_0_r. by destruct state.
  - rewrite (Hall O r0) by done.
    rewrite IH; [simpl; do 3 f_equal; lia|].
    intros j r Hr. by apply (Hall (S j)).
Qed.

Lemma match_loop_inv s n rest state i state' :
  match_loop s n rest state = (Some i, state') ->
  exists j r, i = (iter state + j)%nat /\ rest !! j = Some r /\
    (strncmp s (name r) n =? 0) = true /\
    (forall j' r', (j' < j)%nat -> rest !! j' = Some r' ->
                   (strncmp s (name r') n =? 0) = false) /\
    state' = {| iter := S i; match_count := match_count state + 1 |}.
Proof.
  revert state. induction rest as [|r0 rest IH]; intros state; simpl; [done|].
  destruct (strncmp s (name r0) n =? 0) eqn:E.
  - intros [= <- <-]. exists O, r0. split_and!; [lia|done|done|intros; lia|done].
  - intros H. apply IH in H as (j & r & Hi & Hj & Hm & Hbefore & Hst).
    simpl in Hi, Hst. exists (S j), r.
    split; [lia|]. split; [done|]. split; [done|]. split; [|done].
    intros [|j'] r' Hlt Hr'; simpl in Hr'; [by injection Hr' as <-|].
    apply (Hbefore j'); [lia|done].
Qed.

(** [iface_match_by_name], from the slot of the iterator on. *)
Lemma iface_match_by_name_first s state st i r :
  iface_list st !! i = Some r -> (iter state <= i)%nat ->
  name_matches s r = true ->
  (forall j r', (iter state <= j < i)%nat -> iface_list st !! j = Some r' ->
                name_matches s r' = false) ->
  iface_match_by_name (Some s) state st =
    (Some i, {| iter := S i; match_count := match_count state + 1 |}).
Proof.
  intros Hi Hle Hm Hbefore. unfold iface_match_by_name.
  rewrite (match_loop_first s _ state (i - iter state) r).
  - replace (iter state + (i - iter state))%nat with i by lia. done.
  - rewrite lookup_drop. by replace (iter state + (i - iter state))%nat with i by lia.
  - exact Hm.
  - intros j' r' Hlt Hr'. rewrite lookup_drop in Hr'.
    apply (Hbefore (iter state + j')%nat); [lia|done].
Qed.

Lemma iface_match_by_name_none s state st :
  (forall j r, (iter state <= j)%nat -> iface_list st !! j = Some r ->
               name_matches s r = false) ->
  iface_match_by_name (Some s) state st =
    (None, {| iter := Nat.max (iter state) (num_ifaces st);
              match_count := match_count state |}).
Proof.
  intros Hall. unfold iface_match_by_name. rewrite match_loop_none.
  - rewrite length_drop. unfold num_ifaces. do 2 f_equal. lia.
  - intros j r Hr. rewrite lookup_drop in Hr.
    apply (Hall (iter state + j)%nat); [lia|done].
Qed.

Lemma iface_match_by_name_inv s state st i state' :
  iface_match_by_name (Some s) state st = (Some i, state') ->
  exists r, iface_list st !! i = Some r /\ (iter state <= i)%nat /\
    name_matches s r = true /\
    (forall j r', (iter state <= j < i)%nat -> iface_list st !! j = Some r' ->
                  name_matches s r' = false) /\
    state' = {| iter := S i; match_count := match_count state + 1 |}.
Proof.
  unfold iface_match_by_name. intros H.
  apply match_loop_inv in H as (j & r & -> & Hj & Hm & Hbefore & ->).
  rewrite lookup_drop in Hj. exists r. split_and!; [done|lia|done| |done].
  intros j' r' Hr Hj'. unfold name_matches.
  apply (Hbefore (j' - iter state)%nat); [lia|].
  rewrite lookup_drop. by replace (iter state + (j' - iter state))%nat with j' by lia.
Qed.

(** Either some record from the iterator on compares equal, and then
    there is a first one, or none does. *)
Lemma first_match_dec (P : iface -> bool) (l : list iface) k :
  (exists i r, l !! i = Some r /\ (k <= i)%nat /\ P r = true /\
     forall j r', (k <= j < i)%nat -> l !! j = Some r' -> P r' = false) \/
  (forall j r, (k <= j)%nat -> l !! j = Some r -> P r = false).
Proof.
  revert k. induction l as [|r0 l IH] using rev_ind; intros k.
  - right. intros j r _ Hr. done.
  - destruct (IH k) as [(i & r & Hi & Hk & HP & Hbefore)|Hnone].
    + left. exists i, r. split_and!; [|done|done|].
      * rewrite lookup_app_l; [done|]. by eapply lookup_lt_Some.
      * intros j r' Hj Hr'. apply (Hbefore j); [done|].
        rewrite lookup_app_l in Hr'; [done|]. apply lookup_lt_Some in Hi. lia.
    + destruct (decide (k <= length l)%nat) as [Hk|Hk].
      * destruct (P r0) eqn:HP.
        -- left. exists (length l), r0. split_and!; [|done|done|].
           ++ rewrite lookup_app_r by lia. by rewrite Nat.sub_diag.
           ++ intros j r' Hj Hr'. apply (Hnone j); [lia|].
              rewrite lookup_app_l in Hr'; [done|lia].
        -- right. intros j r Hj Hr.
           destruct (decide (j < length l)%nat) as [Hlt|Hge].
           ++ rewrite lookup_app_l in Hr by done. by apply (Hnone j).
           ++ rewrite lookup_app_r in Hr by lia.
              destruct (j - length l)%nat; simpl in Hr; [|done]. congruence.
      * right. intros j r Hj Hr.
        apply lookup_lt_Some in Hr. rewrite length_app in Hr. simpl in Hr. lia.
Qed.

End MatchFacts.

Section IndexLoopFacts.

Variable get : option iface -> Z.

(** One turn of the loop of [iface_match_vif_by_name]. *)
Lemma match_index_loop_step ifname st state found :
  match_index_loop get ifname st state found =
    match iface_match_by_name ifname state st with
    | (Some i, state') =>
        if 0 <=? get (iface_list st !! i) then
          (get (iface_list st !! i), state',
           match found with Some _ => Some (Some i) | None => None end)
        else
          match_index_loop get ifname st
            {| iter := iter state'; match_count := match_count state' - 1 |} found
    | (None, state') => (-1, state', found)
    end.
Proof.
  funelim (match_index_loop get ifname st state found);
    match goal with E : iface_match_by_name _ _ _ = _ |- _ => rewrite E end;
    try match goal with E : (0 <=? _) = _ |- _ => rewrite E end; done.
Qed.

Lemma match_index_loop_found s st state found i r :
  iface_list st !! i = Some r -> (iter state <= i)%nat ->
  name_matches s r = true -> 0 <= get (Some r) ->
  (forall j r', (iter state <= j < i)%nat -> iface_list st !! j = Some r' ->
                name_matches s r' = true -> get (Some r') < 0) ->
  match_index_loop get (Some s) st state found =
    (get (Some r),
     {| iter := S i; match_count := match_count state + 1 |},
     match found with Some _ => Some (Some i) | None => None end).
Proof.
  intros Hi. remember (i - iter state)%nat as d eqn:Hd. revert state Hd.
  induction d as [d IH] using lt_wf_ind. intros state Hd Hle Hm Hget Hbefore.
  rewrite match_index_loop_step.
  destruct (first_match_dec (name_matches s) (iface_list st) (iter state))
    as [(k & rk & Hk & Hkle & Hkm & Hkfirst)|Hnone].
  - rewrite (iface_match_by_name_first s state st k rk Hk Hkle Hkm Hkfirst).
    assert (k <= i)%nat as Hki.
    { destruct (decide (k <= i)%nat); [done|].
      rewrite (Hkfirst i r) in Hm; [done|lia|done]. }
    rewrite Hk. destruct (decide (k = i)) as [->|Hne].
    + assert (rk = r) as -> by congruence.
      destruct (Z.leb_spec 0 (get (Some r))); [done|lia].
    + pose proof (Hbefore k rk ltac:(lia) Hk Hkm) as Hneg.
      destruct (Z.leb_spec 0 (get (Some rk))); [lia|]. cbn [iter match_count].
      rewrite (IH (i - S k)%nat); cbn [iter match_count]; [|lia|done|lia|done|done|].
      * do 3 f_equal. lia.
      * intros j r' Hj. apply Hbefore. lia.
  - by rewrite (Hnone i r Hle Hi) in Hm.
Qed.

Lemma match_index_loop_none s st state found :
  (forall j r, (iter state <= j)%nat -> iface_list st !! j = Some r ->
               name_matches s r = true -> get (Some r) < 0) ->
  match_index_loop get (Some s) st state found =
    (-1,
     {| iter := Nat.max (iter state) (num_ifaces st);
        match_count := match_count state |},
     found).
Proof.
  remember (num_ifaces st - iter state)%nat as d eqn:Hd. revert state Hd.
  induction d as [d IH] using lt_wf_ind. intros state Hd Hall.
  rewrite match_index_loop_step.
  destruct (first_match_dec (name_matches s) (iface_list st) (iter state))
    as [(k & rk & Hk & Hkle & Hkm & Hkfirst)|Hnone].
  - rewrite (iface_match_by_name_first s state st k rk Hk Hkle Hkm Hkfirst).
    pose proof (Hall k rk Hkle Hk Hkm) as Hneg. rewrite Hk.
    destruct (Z.leb_spec 0 (get (Some rk))); [lia|]. cbn [iter match_count].
    pose proof (lookup_lt_Some _ _ _ Hk) as Hlt. fold (num_ifaces st) in Hlt.
    rewrite (IH (num_ifaces st - S k)%nat); cbn [iter match_count]; [|lia|done|].
    + do 3 f_equal; lia.
    + intros j r' Hj. apply Hall. lia.
  - by rewrite (iface_match_by_name_none s state st Hnone).
Qed.

Lemma match_index_loop_null st state found :
  match_index_loop get None st state found = (-1, state, found).
Proof. by rewrite match_index_loop_step. Qed.

End IndexLoopFacts.

(** * Properties of the registry *)

Section Decompositions.

Context {A : Type}.

(** The two ways a list that ends in [x] splits around an element. *)
Lemma snoc_split (l pre post : list A) x y :
  l ++ [x] = pre ++ y :: post ->
  (post = [] /\ pre = l /\ y = x) \/
  (exists post', post = post' ++ [x] /\ l = pre ++ y :: post').
Proof.
  destruct post as [|z post _] using rev_ind.
  - intros H. apply app_inj_tail in H as [-> ->]. by left.
  - intros H. right. exists post.
    change (pre ++ y :: post ++ [z]) with (pre ++ (y :: post) ++ [z]) in H.
    rewrite app_assoc in H. apply app_inj_tail in H as [-> ->]. done.
Qed.

End Decompositions.

Section ChangeFlag.

Variable pf : platform.

(** [change] is set after the nodes [l] exactly when the turn of one
    of them filled the address of a record of the table as it was at
    that turn. *)
Lemma run_change refresh l st :
  fst (run pf refresh l st) = true <->
  exists pre ifa post i a,
    l = pre ++ ifa :: post /\
    fills_address (registry_after pf refresh pre st) ifa i a.
Proof.
  induction l as [|x l IH] using rev_ind.
  - split; [done|]. intros (pre & ifa & post & _ & _ & H & _). by destruct pre.
  - rewrite run_snoc. unfold registry_after in *.
    destruct (run pf refresh l st) as [c st1] eqn:Hrun. cbn [fst snd] in IH.
    destruct (step_cases st1 x) as [(i & a & Hf)|[(i & Hf & Hno)|Hf]].
    + destruct (step_fill pf refresh c st1 x i a Hf) as (r & _ & _ & ->).
      split; [intros _|done]. exists l, x, [], i, a. by rewrite Hrun.
    + rewrite (step_skip pf refresh c st1 x i Hf Hno). cbn [fst]. rewrite IH. split.
      * intros (pre & ifa & post & j & a & -> & H).
        exists pre, ifa, (post ++ [x]), j, a. split; [|done].
        by rewrite <- app_assoc.
      * intros (pre & ifa & post & j & a & Hl & H).
        apply snoc_split in Hl as [(-> & -> & ->)|(post' & -> & ->)].
        -- rewrite Hrun in H. cbn [snd] in H.
           destruct (Hno a). destruct H as (Hj & ? & ?).
           assert (j = i) as -> by congruence. done.
        -- by exists pre, ifa, post', j, a.
    + rewrite (step_miss pf refresh c st1 x Hf).
      assert (fst (if refresh then (c, st1)
                   else (c, {| iface_list := iface_list st1 ++ [new_iface pf x];
                               num_ifaces_alloc :=
                                 if Nat.eqb (num_ifaces st1) (num_ifaces_alloc st1)
                                 then (num_ifaces_alloc st1 * 2)%nat
                                 else num_ifaces_alloc st1 |})) = c) as ->
        by (by destruct refresh).
      rewrite IH. split.
      * intros (pre & ifa & post & j & a & -> & H).
        exists pre, ifa, (post ++ [x]), j, a. split; [|done].
        by rewrite <- app_assoc.
      * intros (pre & ifa & post & j & a & Hl & H).
        apply snoc_split in Hl as [(-> & -> & ->)|(post' & -> & ->)].
        -- rewrite Hrun in H. cbn [snd] in H. destruct H as (Hj & _). congruence.
        -- by exists pre, ifa, post', j, a.
Qed.

End ChangeFlag.

(** C1.  A refresh ([iface_update] with [refresh] set) keeps the number
    of records and the capacity, and keeps every record in its slot with
    all its fields but the address; an address that is not zero stays,
    and an address that changes was zero and becomes the [AF_INET]
    address of a node whose name, cut at the colon, is the name of the
    record. *)
Theorem refresh_only_fills_addresses (pf : platform) (ifaddr : list ifaddrs)
    (st : registry) :
  exists change st',
    iface_update pf (Some ifaddr) true st = Returned (change, st') /\
    num_ifaces st' = num_ifaces st /\
    num_ifaces_alloc st' = num_ifaces_alloc st /\
    forall i r, iface_list st !! i = Some r ->
      exists r', iface_list st' !! i = Some r' /\
        same_but_addr r r' /\
        (inaddr r <> 0 -> inaddr r' = inaddr r) /\
        (inaddr r' <> inaddr r ->
         inaddr r = 0 /\
         exists ifa, ifa ∈ ifaddr /\ inet_addr_of ifa = Some (inaddr r') /\
                     base_name (ifa_name ifa) = name r).
Proof.
  unfold iface_update.
  destruct (fold_left (iface_update_step pf true) ifaddr (false, st)) as [change st'] eqn:E.
  exists change, st'. split; [done|].
  pose proof (fold_length pf true ifaddr (false, st)) as [_ Hlen].
  pose proof (fold_evolves pf true ifaddr (false, st)) as Hev.
  rewrite E in Hlen, Hev. cbn [snd] in *.
  destruct (Hlen eq_refl) as [Hn Ha]. split; [done|]. split; [done|].
  intros i r Hr. destruct (Hev i r Hr) as (r' & Hr' & Hsame & Haddr).
  exists r'. split; [done|]. split; [done|]. split.
  - intros Hnz. destruct Haddr as [|[Hz _]]; [done|congruence].
  - intros Hne. destruct Haddr as [|[Hz Hfrom]]; [congruence|done].
Qed.

Section Assigned.

Variable pf : platform.



End Assigned.


Section BaseName.

(** [base_name] removes what starts at the first colon, and nothing
    of a name without colon. *)
Lemma base_name_app p q :
  strchr p ":"%char = None -> base_name (p +:+ String ":"%char q) = p.
Proof.
  induction p as [|c p IH]; simpl; [done|].
  destruct (Ascii.eqb c ":"%char); [done|].
  destruct (strchr p ":"%char) eqn:E; [done|]. intros _. by rewrite IH.
Qed.

End BaseName.

(** C5.  [iface_find_by_name] compares the name cut at its first colon
    with the name of every record, in the order of the table.  It
    returns the first record of that name whose [vif] is not negative;
    when no record of that name has such a [vif], the last record of
    that name; and NULL when no record has that name.  Hence ["eth0:1"]
    and ["eth0"] resolve alike, to the record [eth0] of a table that
    holds only it. *)
Theorem iface_find_by_name_spec :
  (forall p q, strchr p ":"%char = None ->
               base_name (p +:+ String ":"%char q) = p /\ base_name p = p) /\
  (forall s st,
     match iface_find_by_name (Some s) st with
     | Some i =>
         exists r, iface_list st !! i = Some r /\ name r = base_name s /\
           ((0 <= vif r /\
             forall j r', (j < i)%nat -> iface_list st !! j = Some r' ->
                          name r' = base_name s -> vif r' < 0)
            \/
            (vif r < 0 /\
             forall j r', iface_list st !! j = Some r' ->
                          name r' = base_name s -> vif r' < 0 /\ (j <= i)%nat))
     | None => forall r, r ∈ iface_list st -> name r <> base_name s
     end) /\
  (forall st, iface_find_by_name (Some "eth0:1") st = iface_find_by_name (Some "eth0") st) /\
  (forall a v m,
     iface_find_by_name (Some "eth0:1") (Scenario.table [Scenario.rec "eth0" a v m]) = Some O /\
     iface_find_by_name (Some "eth0") (Scenario.table [Scenario.rec "eth0" a v m]) = Some O).
Proof.
  split; [|split; [|split]].
  - intros p q Hp. split; [by apply base_name_app|by apply strchr_None_base_name].
  - intros s st. rewrite iface_find_by_name_unfold.
    pose proof (find_loop_spec (base_name s) (iface_list st) 0 None) as Hs.
    destruct (find_loop (base_name s) (iface_list st) 0 None) as [i|].
    + destruct Hs as [[? _]|(j0 & r & -> & Hl & Hn & Hcase)]; [done|].
      exists r. done.
    + destruct Hs as [_ Hall]. intros r Hr. by rewrite Forall_forall in Hall; apply Hall.
  - intros st. by rewrite !iface_find_by_name_unfold.
  - intros a v m. rewrite !iface_find_by_name_unfold. simpl.
    by destruct (0 <=? v).
Qed.

(** C7.  [iface_init], whatever the table was before it, including the
    [vif] and [mif] written into it, leaves a table in which every
    record has [vif = -1] and [mif = -1] and is a record created for a
    node of this enumeration, with the address it may have received
    since; the table left does not depend on the table before. *)
Theorem iface_init_resets (pf : platform) (ifaddr : list ifaddrs) (st : registry) :
  exists st',
    iface_init pf (Some ifaddr) st = Returned st' /\
    (forall r, r ∈ iface_list st' -> vif r = -1 /\ mif r = -1) /\
    (forall r, r ∈ iface_list st' ->
       exists ifa a, ifa ∈ ifaddr /\ r = set_inaddr (new_iface pf ifa) a) /\
    (forall st0, iface_init pf (Some ifaddr) st0 = Returned st').
Proof.
  unfold iface_init, iface_update.
  set (empty := {| iface_list := []; num_ifaces_alloc := 1 |}).
  pose proof (fold_Forall pf false
    (fun r => exists ifa a, ifa ∈ ifaddr /\ r = set_inaddr (new_iface pf ifa) a)
    ifaddr (false, empty)) as Hall.
  destruct (fold_left (iface_update_step pf false) ifaddr (false, empty)) as [c st'].
  exists st'. split; [done|].
  assert (forall r, r ∈ iface_list st' ->
            exists ifa a, ifa ∈ ifaddr /\ r = set_inaddr (new_iface pf ifa) a) as Hfrom.
  { apply Forall_forall. apply Hall.
    - intros r a (ifa & a0 & Hin & ->). by exists ifa, a.
    - intros ifa Hin. exists ifa, (inaddr (new_iface pf ifa)). by split.
    - constructor. }
  split; [|split; [exact Hfrom|done]].
  intros r Hr. destruct (Hfrom r Hr) as (ifa & a & _ & ->). done.
Qed.

(** C9.  In a table whose records all have a name, [iface_find_by_name]
    returns NULL for a NULL and for an empty name, and
    [iface_match_by_name] returns NULL for a NULL and for an empty
    pattern. *)
Theorem null_or_empty_name_no_match (st : registry) (state : ifmatch) :
  Forall (fun r => name r <> "") (iface_list st) ->
  iface_find_by_name None st = None /\
  iface_find_by_name (Some "") st = None /\
  fst (iface_match_by_name None state st) = None /\
  fst (iface_match_by_name (Some "") state st) = None.
Proof.
  intros Hall. split; [done|]. split; [by apply iface_find_by_name_None|].
  split; [done|].
  rewrite iface_match_by_name_none; [done|].
  intros j r _ Hr. rewrite name_matches_exact; [|done..].
  apply bool_decide_eq_false_2. rewrite Forall_lookup in Hall. by apply (Hall j).
Qed.

(** C3.  For a pattern that does not end in a plus (and is shorter than
    [UINT_MAX] characters, the bound handed to [strncmp]), the record
    that [iface_match_by_name] returns has the pattern as its name.  In
    the table of [eth0] and [eth01] the pattern ["eth0"] yields [eth0],
    then nothing, and from no iterator state [eth01]. *)
Theorem exact_pattern_matches_equal_name :
  (forall pat state st i state',
     last_char pat <> Some "+"%char -> strlen pat < UINT_MAX ->
     iface_match_by_name (Some pat) state st = (Some i, state') ->
     exists r, iface_list st !! i = Some r /\ name r = pat) /\
  iface_match_by_name (Some "eth0") iface_match_init Scenario.eth0_eth01 =
    (Some O, {| iter := 1; match_count := 1 |}) /\
  iface_match_by_name (Some "eth0") {| iter := 1; match_count := 1 |} Scenario.eth0_eth01 =
    (None, {| iter := 2; match_count := 1 |}) /\
  (forall state, fst (iface_match_by_name (Some "eth0") state Scenario.eth0_eth01) <> Some 1%nat).
Proof.
  assert (forall pat state st i state',
     last_char pat <> Some "+"%char -> strlen pat < UINT_MAX ->
     iface_match_by_name (Some pat) state st = (Some i, state') ->
     exists r, iface_list st !! i = Some r /\ name r = pat) as Hgen.
  { intros pat state st i state' Hlast Hlen H.
    apply iface_match_by_name_inv in H as (r & Hr & _ & Hm & _).
    exists r. split; [done|].
    rewrite name_matches_exact in Hm by done. by apply bool_decide_eq_true_1 in Hm. }
  split; [exact Hgen|]. split; [reflexivity|]. split; [reflexivity|].
  intros state Hc.
  destruct (iface_match_by_name (Some "eth0") state Scenario.eth0_eth01) as [o state'] eqn:E.
  simpl in Hc. subst o.
  apply Hgen in E as (r & Hr & Hn); [|done|done].
  simpl in Hr. injection Hr as <-. done.
Qed.

(** C4.  For a pattern that ends in a plus (of at most [UINT_MAX]
    characters), [iface_match_by_name] returns the first record, from
    the slot of the iterator on, whose name starts with the pattern less
    its plus; the iterator then stands one past that record and has
    counted one more match.  When no such record is left it returns
    NULL and the count is unchanged.  With ["eth+"] over [eth0], [eth1],
    [wlan0] and a fresh iterator the calls yield [eth0], [eth1], NULL,
    and the count ends at 2. *)
Theorem wildcard_pattern_matches_prefix :
  (forall pat state st,
     last_char pat = Some "+"%char -> strlen pat <= UINT_MAX ->
     (forall i r,
        iface_list st !! i = Some r -> (iter state <= i)%nat ->
        String.prefix (drop_last pat) (name r) = true ->
        (forall j r', (iter state <= j < i)%nat -> iface_list st !! j = Some r' ->
                      String.prefix (drop_last pat) (name r') = false) ->
        iface_match_by_name (Some pat) state st =
          (Some i, {| iter := S i; match_count := match_count state + 1 |})) /\
     ((forall j r, (iter state <= j)%nat -> iface_list st !! j = Some r ->
                   String.prefix (drop_last pat) (name r) = false) ->
      iface_match_by_name (Some pat) state st =
        (None, {| iter := Nat.max (iter state) (num_ifaces st);
                  match_count := match_count state |}))) /\
  iface_match_by_name (Some "eth+") iface_match_init Scenario.eth_wlan =
    (Some 0%nat, {| iter := 1; match_count := 1 |}) /\
  iface_match_by_name (Some "eth+") {| iter := 1; match_count := 1 |} Scenario.eth_wlan =
    (Some 1%nat, {| iter := 2; match_count := 2 |}) /\
  iface_match_by_name (Some "eth+") {| iter := 2; match_count := 2 |} Scenario.eth_wlan =
    (None, {| iter := 3; match_count := 2 |}).
Proof.
  split; [|by repeat split].
  intros pat state st Hlast Hlen. split.
  - intros i r Hr Hle Hm Hbefore. apply (iface_match_by_name_first pat state st i r Hr Hle).
    + by rewrite name_matches_prefix.
    + intros j r' Hj Hr'. rewrite name_matches_prefix by done. by apply (Hbefore j).
  - intros Hnone. apply iface_match_by_name_none.
    intros j r Hj Hr. rewrite name_matches_prefix by done. by apply (Hnone j).
Qed.

Section SkipsUnassigned.

Lemma match_index_loop_skips (get : option iface -> Z) :
  skips_unassigned (fun r => get (Some r))
    (fun pat state found st => match_index_loop get pat st state found).
Proof.
  intros pat state found st. split; [|split; [|split]].
  - intros i r state' Hcall Hr Hneg.
    pose proof (iface_match_by_name_inv _ _ _ _ _ Hcall) as (_ & _ & _ & _ & _ & ->).
    split; [done|].
    rewrite match_index_loop_step at 1. rewrite Hcall, Hr.
    destruct (Z.leb_spec 0 (get (Some r))); [lia|].
    cbn [iter match_count]. do 2 f_equal. f_equal. lia.
  - intros i r Hr Hle Hm Hidx Hbefore. by apply match_index_loop_found.
  - intros Hnone. by apply match_index_loop_none.
- apply match_index_loop_null.
Qed.

End SkipsUnassigned.

(** C6, as it holds.  [iface_match_vif_by_name] calls the matcher by
    name from the slot of the iterator on; it skips a match whose [vif]
    is negative, taking back the count of that match, returns the [vif]
    of the first match whose [vif] is not negative, with the record if
    asked for, and returns -1 when there is no such match.
    [iface_match_mif_by_name] does the same with [mif] where
    [HAVE_IPV6_MULTICAST_ROUTING] is defined; where it is not, every
    [mif] reads as -1, so that every match is skipped. *)
Theorem match_vif_mif_skip_unassigned (pf : platform) :
  skips_unassigned vif iface_match_vif_by_name /\
  (HAVE_IPV6_MULTICAST_ROUTING pf = true ->
   skips_unassigned mif (iface_match_mif_by_name pf)) /\
  (HAVE_IPV6_MULTICAST_ROUTING pf = false ->
   skips_unassigned (fun _ => -1) (iface_match_mif_by_name pf)).
Proof.
  split; [|split].
  - apply (match_index_loop_skips iface_get_vif).
  - destruct pf as [size thr idx v6]. simpl. intros ->.
    apply (match_index_loop_skips (iface_get_mif (Build_platform size thr idx true))).
  - destruct pf as [size thr idx v6]. simpl. intros ->.
    apply (match_index_loop_skips (iface_get_mif (Build_platform size thr idx false))).
Qed.

Section Aliases.

Variable pf : platform.

Lemma base_name_idem s : base_name (base_name s) = base_name s.
Proof. apply strchr_None_base_name, strchr_base_name_None. Qed.

Lemma iface_find_by_name_base s st :
  iface_find_by_name (Some (base_name s)) st = iface_find_by_name (Some s) st.
Proof. by rewrite !iface_find_by_name_unfold, base_name_idem. Qed.

Lemma new_iface_name ifa :
  (String.length (ifa_name ifa) < sizeof_name pf)%nat ->
  name (new_iface pf ifa) = ifa_name ifa.
Proof. intros H. simpl. by apply strlcpy_fits. Qed.



End Aliases.

(** C10, as it holds.  In a full reconcile, at the turn of a node whose
    name has a colon: when the turn appends a record, which it does
    exactly when the lookup of the name fails, the record has the name
    of the node cut by [strlcpy] to what the [name] array of a record
    holds, hence the name of the node as it is, colon and suffix
    included, when that name fits; the record keeps its name to the end
    of the reconcile.  When the name cut at the colon resolves to a
    record, no record is appended. *)
Theorem alias_entry_keeps_os_name (pf : platform) (pre : list ifaddrs)
    (ifa : ifaddrs) (post : list ifaddrs) (st : registry) :
  strchr (ifa_name ifa) ":"%char <> None ->
  let st1 := registry_after pf false pre st in
  let st2 := registry_after pf false (pre ++ [ifa]) st in
  let st3 := registry_after pf false (pre ++ ifa :: post) st in
  (num_ifaces st2 = S (num_ifaces st1) <->
   iface_find_by_name (Some (ifa_name ifa)) st1 = None) /\
  (iface_find_by_name (Some (ifa_name ifa)) st1 = None ->
   iface_list st2 = iface_list st1 ++ [new_iface pf ifa] /\
   name (new_iface pf ifa) = strlcpy (ifa_name ifa) (sizeof_name pf) /\
   ((String.length (ifa_name ifa) < sizeof_name pf)%nat ->
    name (new_iface pf ifa) = ifa_name ifa) /\
   exists r, iface_list st3 !! num_ifaces st1 = Some r /\
             name r = name (new_iface pf ifa)) /\
  (forall i, iface_find_by_name (Some (base_name (ifa_name ifa))) st1 = Some i ->
             iface_list st2 = iface_list st1 \/
             exists r a, iface_list st1 !! i = Some r /\
                         iface_list st2 = <[i := set_inaddr r a]> (iface_list st1)) /\
  (forall i, iface_find_by_name (Some (base_name (ifa_name ifa))) st1 = Some i ->
             num_ifaces st2 = num_ifaces st1).
Proof.
  intros Hcolon st1 st2 st3.
  assert (st2 = snd (iface_update_step pf false (false, st1) ifa)) as Hst2.
  { unfold st2. by rewrite registry_after_app. }
  assert (st3 = registry_after pf false post st2) as Hst3.
  { unfold st3, st2. change (ifa :: post) with ([ifa] ++ post).
    by rewrite app_assoc, registry_after_app. }
  assert (forall i, iface_find_by_name (Some (ifa_name ifa)) st1 = Some i ->
             iface_list st2 = iface_list st1 \/
             exists r a, iface_list st1 !! i = Some r /\
                         iface_list st2 = <[i := set_inaddr r a]> (iface_list st1)) as Hsome.
  { intros i Hi. rewrite Hst2.
    destruct (step_cases st1 ifa) as [(k & a & Hf)|[(k & Hf & Hskip)|Hf]].
    - destruct (step_fill pf false false st1 ifa k a Hf) as (r & Hr & _ & ->).
      destruct Hf as (Hfind & _). assert (k = i) as -> by congruence.
      right. by exists r, a.
    - rewrite (step_skip pf false false st1 ifa k Hf Hskip). by left.
    - congruence. }
  assert (iface_find_by_name (Some (ifa_name ifa)) st1 = None ->
          iface_list st2 = iface_list st1 ++ [new_iface pf ifa]) as Hnone.
  { intros Hf. rewrite Hst2. by rewrite (step_miss pf false false st1 ifa Hf). }
  split; [|split; [|split]].
  - unfold num_ifaces. split.
    + intros Hlen.
      destruct (iface_find_by_name (Some (ifa_name ifa)) st1) as [i|] eqn:Hf; [|done].
      destruct (Hsome i eq_refl) as [E|(r & a & _ & E)]; rewrite E in Hlen.
      * lia.
      * rewrite length_insert in Hlen. lia.
    + intros Hf. rewrite (Hnone Hf), length_app. simpl. lia.
  - intros Hf. split; [by apply Hnone|]. split; [done|].
    split; [by apply new_iface_name|].
    pose proof (registry_after_evolves pf false post st2) as Hev.
    rewrite <- Hst3 in Hev.
    destruct (Hev (num_ifaces st1) (new_iface pf ifa)) as (r & Hr & Hsame & _).
    { rewrite (Hnone Hf). unfold num_ifaces.
      rewrite lookup_app_r by lia. by rewrite Nat.sub_diag. }
    exists r. split; [done|]. by destruct Hsame as [-> _].
  - intros i Hi. rewrite iface_find_by_name_base in Hi. by apply Hsome.
  - intros i Hi. rewrite iface_find_by_name_base in Hi. unfold num_ifaces.
    destruct (Hsome i Hi) as [E|(r & a & _ & E)]; rewrite E; [done|].
    by rewrite length_insert.
Qed.


(** * The properties at work on the scenarios *)

(** ["eth0"] against the table of [eth0] and [eth01]: the record
    returned is the one named ["eth0"]. *)
Lemma exact_pattern_on_eth0_eth01 :
  last_char "eth0" <> Some "+"%char /\ strlen "eth0" < UINT_MAX /\
  exists r, iface_list Scenario.eth0_eth01 !! 0%nat = Some r /\ name r = "eth0".
Proof.
  split; [discriminate|]. split; [reflexivity|].
  apply (proj1 exact_pattern_matches_equal_name "eth0" iface_match_init
           Scenario.eth0_eth01 0%nat {| iter := 1; match_count := 1 |}).
  - discriminate.
  - reflexivity.
  - reflexivity.
Defined.

(** ["eth+"] against [eth0], [eth1], [wlan0], from the iterator that
    stands behind [eth0]: the next match is [eth1]. *)
Lemma wildcard_pattern_on_eth_wlan :
  last_char "eth+" = Some "+"%char /\ strlen "eth+" <= UINT_MAX /\
  iface_match_by_name (Some "eth+") {| iter := 1; match_count := 1 |} Scenario.eth_wlan =
    (Some 1%nat, {| iter := 2; match_count := 1 + 1 |}).
Proof.
  split; [reflexivity|]. split; [discriminate|].
  apply (proj1 (proj1 wildcard_pattern_matches_prefix "eth+"
                  {| iter := 1; match_count := 1 |} Scenario.eth_wlan
                  eq_refl ltac:(discriminate))
           1%nat (Scenario.rec "eth1" 0 (-1) (-1))).
  - reflexivity.
  - simpl. lia.
  - reflexivity.
  - intros j r' Hj. simpl in Hj. lia.
Defined.

(** A table in which every record has a name. *)
Lemma null_or_empty_name_on_eth_wlan :
  Forall (fun r => name r <> "") (iface_list Scenario.eth_wlan) /\
  iface_find_by_name None Scenario.eth_wlan = None /\
  iface_find_by_name (Some "") Scenario.eth_wlan = None /\
  fst (iface_match_by_name None iface_match_init Scenario.eth_wlan) = None /\
  fst (iface_match_by_name (Some "") iface_match_init Scenario.eth_wlan) = None.
Proof.
  assert (Forall (fun r => name r <> "") (iface_list Scenario.eth_wlan)) as H.
  { repeat constructor; discriminate. }
  split; [exact H|].
  exact (null_or_empty_name_no_match Scenario.eth_wlan iface_match_init H).
Defined.

(** [eth0] has no virtual interface, [eth1] has the third: ["eth+"]
    yields 3 and the record [eth1], having counted one match. *)
Lemma match_vif_skips_eth0 :
  iface_match_vif_by_name (Some "eth+") iface_match_init (Some None)
    (Scenario.table [Scenario.rec "eth0" 0 (-1) (-1); Scenario.rec "eth1" 0 3 (-1)]) =
    (3, {| iter := 2; match_count := 0 + 1 |}, Some (Some 1%nat)).
Proof.
  apply (proj1 (proj2 (proj1 (match_vif_mif_skip_unassigned Scenario.linux)
                         "eth+" iface_match_init (Some None)
                         (Scenario.table [Scenario.rec "eth0" 0 (-1) (-1);
                                          Scenario.rec "eth1" 0 3 (-1)])))
           1%nat (Scenario.rec "eth1" 0 3 (-1))).
  - reflexivity.
  - simpl. lia.
  - reflexivity.
  - simpl. lia.
  - intros [|[|j]] r' Hj Hr' _; simpl in *; [|lia..].
    injection Hr' as <-. simpl. lia.
Defined.

(** Without IPv6 multicast routing a record that matches by name and
    has a [mif] of 3 is skipped: the call returns -1, not 3. *)
Lemma match_mif_without_ipv6_returns_unset :
  name_matches "eth0" (Scenario.rec "eth0" 0 (-1) 3) = true /\
  0 <= mif (Scenario.rec "eth0" 0 (-1) 3) /\
  iface_match_mif_by_name Scenario.no_ipv6 (Some "eth0") iface_match_init None
    (Scenario.table [Scenario.rec "eth0" 0 (-1) 3]) =
    (-1, {| iter := 1; match_count := 0 |}, None) /\
  ~ skips_unassigned mif (iface_match_mif_by_name Scenario.no_ipv6).
Proof.
  split; [reflexivity|]. split; [simpl; lia|]. split; [reflexivity|].
  intros H.
  destruct (H "eth0" iface_match_init None (Scenario.table [Scenario.rec "eth0" 0 (-1) 3]))
    as (_ & Hfound & _ & _).
  assert (iface_match_mif_by_name Scenario.no_ipv6 (Some "eth0") iface_match_init None
            (Scenario.table [Scenario.rec "eth0" 0 (-1) 3]) =
          (3, {| iter := 1; match_count := 0 + 1 |}, None)) as Hc.
  { apply (Hfound 0%nat (Scenario.rec "eth0" 0 (-1) 3) eq_refl);
      [simpl; lia|reflexivity|simpl; lia|].
    intros j r' Hj. simpl in Hj. lia. }
  vm_compute in Hc. discriminate Hc.
Qed.



(** A full reconcile of an empty table with the node ["eth0:1"], then
    a second node of that name: the record of the first is named
    ["eth0:1"]. *)
Lemma alias_entry_on_empty_table :
  strchr "eth0:1" ":"%char <> None /\
  exists r,
    iface_list (registry_after Scenario.linux false
                  ([] ++ Scenario.node "eth0:1" (Some 167772161) ::
                   [Scenario.node "eth0:1" None])
                  Scenario.empty) !! 0%nat = Some r /\
    name r = "eth0:1".
Proof.
  split; [discriminate|].
  pose proof (alias_entry_keeps_os_name Scenario.linux []
    (Scenario.node "eth0:1" (Some 167772161)) [Scenario.node "eth0:1" None]
    Scenario.empty) as H.
  cbv zeta in H.
  destruct H as (_ & Happend & _).
  - discriminate.
  - destruct Happend as (_ & _ & _ & Hr); [reflexivity|exact Hr].
Defined.

(** A full reconcile of an empty table with the node
    ["enp0s31f6.1000:10"], of seventeen characters, where a record
    holds sixteen: the record is named ["enp0s31f6.1000:1"]. *)
Lemma long_alias_name_is_cut :
  strchr "enp0s31f6.1000:10" ":"%char = Some 14%nat /\
  iface_update Scenario.linux (Some [Scenario.node "enp0s31f6.1000:10" None])
    false Scenario.empty =
  Returned (false,
            {| iface_list := [Scenario.rec "enp0s31f6.1000:1" 0 (-1) (-1)];
               num_ifaces_alloc := 1 |}) /\
  "enp0s31f6.1000:1" <> "enp0s31f6.1000:10".
Proof. split; [reflexivity|]. split; [reflexivity|discriminate]. Qed.



(** The scenario of the specification: [lo] without address and [eth0]
    with 10.0.0.5 are enumerated into an empty table; a refresh that
    then reports 127.0.0.1 for [lo] changes the record of [lo] only and
    returns true. *)
Example refresh_after_populate :
  iface_init Scenario.linux
    (Some [Scenario.node "lo" None; Scenario.node "eth0" (Some 167772165)])
    Scenario.only_eth0 =
  Returned {| iface_list := [Scenario.rec "lo" 0 (-1) (-1);
                             Scenario.rec "eth0" 167772165 (-1) (-1)];
              num_ifaces_alloc := 2 |} /\
  iface_update Scenario.linux
    (Some [Scenario.node "lo" (Some 2130706433); Scenario.node "eth0" (Some 167772165)])
    true
    {| iface_list := [Scenario.rec "lo" 0 (-1) (-1);
                      Scenario.rec "eth0" 167772165 (-1) (-1)];
       num_ifaces_alloc := 2 |} =
  Returned (true,
            {| iface_list := [Scenario.rec "lo" 2130706433 (-1) (-1);
                              Scenario.rec "eth0" 167772165 (-1) (-1)];
               num_ifaces_alloc := 2 |}).
Proof. split; reflexivity. Qed.

(** A name longer than the [name] array is cut by [strlcpy]. *)
Example long_name_is_cut :
  name (new_iface Scenario.linux (Scenario.node "averyveryverylongname" None)) =
  "averyveryverylon".
Proof. reflexivity. Qed.

(** * Further properties *)

Section IndexLookups.

Lemma iface_find_loop_spec idx l k :
  match iface_find_loop idx l k with
  | Some i =>
      exists j r, i = (k + j)%nat /\ l !! j = Some r /\ ifindex r = idx /\
        forall j' r', (j' < j)%nat -> l !! j' = Some r' -> ifindex r' <> idx
  | None => Forall (fun r => ifindex r <> idx) l
  end.
Proof.
  revert k. induction l as [|r l IH]; intros k; simpl; [constructor|].
  destruct (Z.eqb_spec (ifindex r) idx) as [He|Hne].
  - exists O, r. split_and!; [lia|done|done|]. intros; lia.
  - specialize (IH (S k)). destruct (iface_find_loop idx l (S k)) as [i|].
    + destruct IH as (j & r' & -> & Hj & Hidx & Hfirst).
      exists (S j), r'. split_and!; [lia|done|done|].
      intros [|j'] r'' Hlt Hr''; simpl in Hr''; [by injection Hr'' as <-|].
      apply (Hfirst j'); [lia|done].
    + by constructor.
Qed.

Lemma iface_find_by_vif_loop_spec v l k :
  match iface_find_by_vif_loop v l k with
  | Some i =>
      exists j r, i = (k + j)%nat /\ l !! j = Some r /\ 0 <= v /\ vif r = v /\
        forall j' r', (j' < j)%nat -> l !! j' = Some r' -> vif r' <> v
  | None => v < 0 \/ Forall (fun r => vif r <> v) l
  end.
Proof.
  revert k. induction l as [|r l IH]; intros k; simpl; [right; constructor|].
  destruct (Z.leb_spec 0 (vif r)) as [Hpos|Hneg]; simpl;
    [destruct (Z.eqb_spec (vif r) v) as [He|Hne]|].
  - exists O, r. split_and!; [lia|done|lia|done|]. intros; lia.
  - specialize (IH (S k)). destruct (iface_find_by_vif_loop v l (S k)) as [i|].
    + destruct IH as (j & r' & -> & Hj & Hv & Hvif & Hfirst).
      exists (S j), r'. split_and!; [lia|done|done|done|].
      intros [|j'] r'' Hlt Hr''; simpl in Hr''; [by injection Hr'' as <-|].
      apply (Hfirst j'); [lia|done].
    + destruct IH as [Hv|Hall]; [by left|]. right. by constructor.
  - specialize (IH (S k)). destruct (iface_find_by_vif_loop v l (S k)) as [i|].
    + destruct IH as (j & r' & -> & Hj & Hv & Hvif & Hfirst).
      exists (S j), r'. split_and!; [lia|done|done|done|].
      intros [|j'] r'' Hlt Hr''; simpl in Hr''; [injection Hr'' as <-; lia|].
      apply (Hfirst j'); [lia|done].
    + destruct IH as [Hv|Hall]; [by left|].
      destruct (decide (v < 0)); [by left|]. right. constructor; [lia|done].
Qed.

End IndexLookups.

(** X1.  [iface_find] returns the first record of the table, in table
    order, whose [ifindex] is the one asked for, whatever the [vif] of
    that record or of a later record of the same index; it returns NULL
    exactly when no record has that index. *)
Theorem iface_find_first (idx : Z) (st : registry) :
  match iface_find idx st with
  | Some i =>
      exists r, iface_list st !! i = Some r /\ ifindex r = idx /\
        forall j r', (j < i)%nat -> iface_list st !! j = Some r' -> ifindex r' <> idx
  | None => forall r, r ∈ iface_list st -> ifindex r <> idx
  end.
Proof.
  unfold iface_find. pose proof (iface_find_loop_spec idx (iface_list st) 0) as H.
  destruct (iface_find_loop idx (iface_list st) 0) as [i|].
  - destruct H as (j & r & -> & Hj & Hidx & Hfirst). by exists r.
  - by apply Forall_forall.
Qed.

(** X2.  [iface_find_by_vif] returns NULL for every negative index,
    also when records have that negative [vif]; for an index that is
    not negative it returns the first record with that [vif], whose
    [iface_get_vif] is then the index asked for, and NULL exactly when
    no record has it. *)
Theorem iface_find_by_vif_spec (v : Z) (st : registry) :
  (v < 0 -> iface_find_by_vif v st = None) /\
  match iface_find_by_vif v st with
  | Some i =>
      0 <= v /\ iface_get_vif (iface_list st !! i) = v /\
      forall j r', (j < i)%nat -> iface_list st !! j = Some r' -> vif r' <> v
  | None => 0 <= v -> forall r, r ∈ iface_list st -> vif r <> v
  end.
Proof.
  unfold iface_find_by_vif.
  pose proof (iface_find_by_vif_loop_spec v (iface_list st) 0) as H.
  destruct (iface_find_by_vif_loop v (iface_list st) 0) as [i|].
  - destruct H as (j & r & -> & Hj & Hv & Hvif & Hfirst).
    simpl. split; [lia|]. split; [done|]. split; [by rewrite Hj|done].
  - split; [done|]. intros Hv. destruct H as [|H]; [lia|]. by apply Forall_forall.
Qed.

(** X3.  In the table that [iface_init] leaves no virtual interface
    resolves: [iface_find_by_vif] returns NULL for every index, and
    [iface_match_vif_by_name] and [iface_match_mif_by_name] return -1
    for every pattern and from every iterator state, with the count of
    matches and the variable behind [found] as they were. *)
Theorem iface_init_leaves_no_virtual_interface (pf : platform)
    (ifaddr : list ifaddrs) (st : registry) :
  exists st',
    iface_init pf (Some ifaddr) st = Returned st' /\
    (forall v, iface_find_by_vif v st' = None) /\
    (forall pat state found,
       iface_match_vif_by_name (Some pat) state found st' =
         (-1,
          {| iter := Nat.max (iter state) (num_ifaces st');
             match_count := match_count state |},
          found)) /\
    (forall pat state found,
       iface_match_mif_by_name pf (Some pat) state found st' =
         (-1,
          {| iter := Nat.max (iter state) (num_ifaces st');
             match_count := match_count state |},
          found)).
Proof.
  unfold iface_init, iface_update.
  set (empty := {| iface_list := []; num_ifaces_alloc := 1 |}).
  pose proof (fold_Forall pf false (fun r => vif r = -1 /\ mif r = -1)
                ifaddr (false, empty)) as Hall.
  destruct (fold_left (iface_update_step pf false) ifaddr (false, empty)) as [c st'].
  exists st'. split; [done|].
  assert (Forall (fun r => vif r = -1 /\ mif r = -1) (iface_list st')) as Hunset.
  { apply Hall; [done|done|constructor]. }
  rewrite Forall_lookup in Hunset. split; [|split].
  - intros v. unfold iface_find_by_vif.
    pose proof (iface_find_by_vif_loop_spec v (iface_list st') 0) as Hs.
    destruct (iface_find_by_vif_loop v (iface_list st') 0) as [i|]; [|done].
    destruct Hs as (j & r & _ & Hr & Hv & Hvif & _).
    destruct (Hunset _ _ Hr). lia.
  - intros pat state found. apply match_index_loop_none.
    intros j r _ Hr _. destruct (Hunset _ _ Hr) as [Hv _]. simpl. lia.
  - intros pat state found. apply match_index_loop_none.
    intros j r _ Hr _. destruct (Hunset _ _ Hr) as [_ Hm].
    unfold iface_get_mif. destruct (HAVE_IPV6_MULTICAST_ROUTING pf); lia.
Qed.

Section Iterator.

Lemma slots_past_end k i (n : nat) :
  (n <= i)%nat ->
  map (fun j => if (j <? n)%nat then Some j else None) (seq i k) = replicate k None.
Proof.
  revert i. induction k as [|k IH]; intros i Hi; simpl; [done|].
  destruct (Nat.ltb_spec i n); [lia|]. f_equal. apply IH. lia.
Qed.

Lemma iterator_calls_next k i st :
  iterator_calls (replicate k false) i st =
    (map (fun j => if (j <? num_ifaces st)%nat then Some j else None) (seq i k),
     Nat.max i (Nat.min (i + k) (num_ifaces st))).
Proof.
  revert i. induction k as [|k IH]; intros i.
  - simpl. f_equal. lia.
  - cbn [replicate iterator_calls seq map]. rewrite iface_iterator_next.
    destruct (Nat.leb_spec (num_ifaces st) i) as [Hge|Hlt].
    + rewrite IH. destruct (Nat.ltb_spec i (num_ifaces st)); [lia|].
      rewrite !slots_past_end by lia. f_equal. lia.
    + rewrite IH. destruct (Nat.ltb_spec i (num_ifaces st)); [|lia].
      f_equal. lia.
Qed.

End Iterator.

(** X4.  A call of [iface_iterator] with [first] set, followed by [k]
    calls without, returns the records of the table in table order, one
    per call, and NULL from the call after the last record on, whatever
    the variable of the iterator held before; the variable ends at the
    number of records returned. *)
Theorem iface_iterator_enumerates (k i : nat) (st : registry) :
  iterator_calls (true :: replicate k false) i st =
    (map (fun j => if (j <? num_ifaces st)%nat then Some j else None) (seq 0 (S k)),
     Nat.min (S k) (num_ifaces st)).
Proof.
  cbn [iterator_calls seq map]. unfold iface_iterator.
  destruct (Nat.leb_spec (num_ifaces st) 0) as [Hge|Hlt].
  - rewrite iterator_calls_next. destruct (Nat.ltb_spec 0 (num_ifaces st)); [lia|].
    rewrite !slots_past_end by lia. f_equal. lia.
  - rewrite iterator_calls_next. destruct (Nat.ltb_spec 0 (num_ifaces st)); [|lia].
    f_equal. lia.
Qed.

Section Show.

Context {W : Type}.
Variable ipc_send : Z -> string -> W -> Z * W.

(** One turn of the loop of [iface_show]. *)
Lemma show_loop_step sd st iface i w :
  show_loop ipc_send sd st iface i w =
    match iface with
    | None => (0, i, w)
    | Some j =>
        match iface_list st !! j with
        | None => (0, i, w)
        | Some r =>
            let '(rc, w') := ipc_send sd (show_buf r) w in
            if rc <? 0 then (-1, i, w')
            else
              let '(iface', i') := iface_iterator false i st in
              show_loop ipc_send sd st iface' i' w'
        end
    end.
Proof.
  funelim (show_loop ipc_send sd st iface i w); try done;
    repeat match goal with
           | E : _ !! _ = _ |- _ => rewrite E
           | E : ipc_send _ _ _ = _ |- _ => rewrite E
           | E : (_ <? 0) = _ |- _ => rewrite E
           | E : iface_iterator _ _ _ = _ |- _ => rewrite E
           end; done.
Qed.

(** From the record in slot [j] on, the loop sends the lines of the
    records that follow, in table order. *)
Lemma show_loop_from sd st j w :
  (j < num_ifaces st)%nat ->
  show_loop ipc_send sd st (Some j) (S j) w =
    let '(r, n, w') :=
      send_all ipc_send sd (map show_buf (drop j (iface_list st))) w in
    (r, (j + n)%nat, w').
Proof.
  remember (num_ifaces st - j)%nat as d eqn:Hd. revert j w Hd.
  induction d as [d IH] using lt_wf_ind. intros j w Hd Hj.
  rewrite show_loop_step.
  destruct (lookup_lt_is_Some_2 (iface_list st) j Hj) as [r Hr].
  rewrite Hr, (drop_S _ _ _ Hr). cbn [map send_all].
  destruct (ipc_send sd (show_buf r) w) as [rc w'].
  destruct (rc <? 0); [f_equal; f_equal; lia|].
  rewrite iface_iterator_next.
  destruct (Nat.leb_spec (num_ifaces st) (S j)) as [Hge|Hlt].
  - rewrite show_loop_step. rewrite drop_ge by (unfold num_ifaces in Hge; lia).
    simpl. f_equal. f_equal. lia.
  - rewrite (IH (num_ifaces st - S j)%nat) by lia.
    destruct (send_all ipc_send sd (map show_buf (drop (S j) (iface_list st))) w')
      as [[r' n] w''].
    f_equal. f_equal. lia.
Qed.

End Show.

Section SendAll.

Context {W : Type}.
Variable ipc_send : Z -> string -> W -> Z * W.

Lemma send_all_result sd bufs w :
  let '(r, n, _) := send_all ipc_send sd bufs w in
  (r = 0 /\ n = length bufs) \/ (r = -1 /\ (1 <= n <= length bufs)%nat).
Proof.
  revert w. induction bufs as [|buf bufs IH]; intros w; simpl; [by left|].
  destruct (ipc_send sd buf w) as [rc w'].
  destruct (rc <? 0); [right; split; [done|lia]|].
  specialize (IH w'). destruct (send_all ipc_send sd bufs w') as [[r n] w''].
  destruct IH as [[-> ->]|[-> Hn]]; [by left|right; split; [done|lia]].
Qed.

Lemma send_all_success sd bufs w :
  (forall buf w0, 0 <= fst (ipc_send sd buf w0)) ->
  exists w', send_all ipc_send sd bufs w = (0, length bufs, w').
Proof.
  intros Hok. revert w. induction bufs as [|buf bufs IH]; intros w; simpl; [by exists w|].
  specialize (Hok buf w) as Hrc. destruct (ipc_send sd buf w) as [rc w']. simpl in Hrc.
  destruct (Z.ltb_spec rc 0); [lia|].
  destruct (IH w') as [w'' ->]. by exists w''.
Qed.

End SendAll.

(** X5.  [iface_show] calls [ipc_send] once for each record of the
    table, in table order, with the line of that record, up to the
    first call that returns a negative value: then it returns -1 and
    sends nothing more; when no call fails it returns 0, and it returns
    no other value.  The variable of [iface_iterator] is left at the
    number of lines handed to [ipc_send], whatever it held before. *)
Theorem iface_show_sends_table_in_order {W : Type}
    (ipc_send : Z -> string -> W -> Z * W) (sd detail : Z) (i : nat)
    (st : registry) (w : W) :
  iface_show ipc_send sd detail i st w =
    send_all ipc_send sd (map show_buf (iface_list st)) w /\
  (let '(r, n, _) := iface_show ipc_send sd detail i st w in
   (r = 0 /\ n = num_ifaces st) \/ (r = -1 /\ (1 <= n <= num_ifaces st)%nat)) /\
  ((forall buf w0, 0 <= fst (ipc_send sd buf w0)) ->
   exists w', iface_show ipc_send sd detail i st w = (0, num_ifaces st, w')).
Proof.
  assert (iface_show ipc_send sd detail i st w =
          send_all ipc_send sd (map show_buf (iface_list st)) w) as Heq.
  { unfold iface_show, iface_iterator.
    destruct (Nat.leb_spec (num_ifaces st) 0) as [Hge|Hlt].
    - rewrite show_loop_step. unfold num_ifaces in Hge.
      destruct (iface_list st); simpl in *; [done|lia].
    - rewrite show_loop_from by done. rewrite drop_0.
      by destruct (send_all ipc_send sd (map show_buf (iface_list st)) w) as [[r n] w']. }
  split; [exact Heq|]. rewrite Heq. unfold num_ifaces. split.
  - pose proof (send_all_result ipc_send sd (map show_buf (iface_list st)) w) as H.
    by rewrite length_map in H.
  - intros Hok.
    destruct (send_all_success ipc_send sd (map show_buf (iface_list st)) w Hok) as [w' H].
    rewrite length_map in H. by exists w'.
Qed.

Section Columns.





Lemma length_substring_le s k : (String.length (String.substring 0 k s) <= k)%nat.
Proof.
  revert k. induction s as [|c s IH]; intros [|k]; simpl; try lia.
  specialize (IH k). lia.
Qed.



End Columns.


Section Invariants.

Variable pf : platform.

(** What every turn of the loop keeps, the loop keeps. *)
Lemma fold_registry_inv refresh (P : registry -> Prop) l acc :
  (forall c st x, x ∈ l -> P st -> P (snd (iface_update_step pf refresh (c, st) x))) ->
  P (snd acc) ->
  P (snd (fold_left (iface_update_step pf refresh) l acc)).
Proof.
  revert acc. induction l as [|x l IH]; intros [c st] Hstep Hacc; cbn [fold_left]; [done|].
  apply IH.
  - intros c' st' x' Hin. apply Hstep. by right.
  - destruct (iface_update_step pf refresh (c, st) x) as [c1 st1] eqn:E.
    pose proof (Hstep c st x ltac:(by left) Hacc) as H. by rewrite E in H.
Qed.

End Invariants.

(** X8.  No name in the table is longer than the [name] array of a
    record allows: [iface_update] keeps every name within
    [sizeof (name) - 1] characters, and after [iface_init] every name
    is that short, however long the names that [getifaddrs] reports. *)
Theorem names_fit_the_array (pf : platform) (refresh : bool)
    (ifaddr : list ifaddrs) (st : registry) :
  (Forall (fun r => (String.length (name r) <= sizeof_name pf - 1)%nat) (iface_list st) ->
   Forall (fun r => (String.length (name r) <= sizeof_name pf - 1)%nat)
          (iface_list (registry_after pf refresh ifaddr st))) /\
  exists st',
    iface_init pf (Some ifaddr) st = Returned st' /\
    Forall (fun r => (String.length (name r) <= sizeof_name pf - 1)%nat) (iface_list st').
Proof.
  assert (forall refresh acc,
    Forall (fun r => (String.length (name r) <= sizeof_name pf - 1)%nat) (iface_list (snd acc)) ->
    Forall (fun r => (String.length (name r) <= sizeof_name pf - 1)%nat)
      (iface_list (snd (fold_left (iface_update_step pf refresh) ifaddr acc)))) as Hkeep.
  { intros refresh' acc. apply fold_Forall; [done|].
    intros ifa _. simpl. apply length_substring_le. }
  split.
  - apply (Hkeep refresh (false, st)).
  - unfold iface_init, iface_update.
    set (empty := {| iface_list := []; num_ifaces_alloc := 1 |}).
    specialize (Hkeep false (false, empty)).
    destruct (fold_left (iface_update_step pf false) ifaddr (false, empty)) as [c st'].
    exists st'. split; [done|]. apply Hkeep. constructor.
Qed.

Section Populate.

Variable pf : platform.

(** After the turn of a node whose name has no colon and fits, some
    record has that name. *)
Lemma step_records_name refresh c st x :
  refresh = false ->
  strchr (ifa_name x) ":"%char = None ->
  (String.length (ifa_name x) < sizeof_name pf)%nat ->
  exists k r, iface_list (snd (iface_update_step pf refresh (c, st) x)) !! k = Some r /\
              name r = ifa_name x.
Proof.
  intros -> Hcolon Hfits. pose proof (strchr_None_base_name _ Hcolon) as Hbase.
  destruct (step_cases st x) as [(i & a & Hf)|[(i & Hf & Hno)|Hf]].
  - destruct (step_fill pf false c st x i a Hf) as (r & Hr & Ha & ->). simpl.
    destruct Hf as (Hfind & _).
    destruct (iface_find_by_name_Some _ _ _ Hfind) as (r' & Hr' & Hn).
    assert (r' = r) as -> by congruence.
    exists i, (set_inaddr r a). split; [|simpl; congruence].
    apply list_lookup_insert_eq. by eapply lookup_lt_Some.
  - rewrite (step_skip pf false c st x i Hf Hno). simpl.
    destruct (iface_find_by_name_Some _ _ _ Hf) as (r & Hr & Hn).
    exists i, r. split; [done|congruence].
  - rewrite (step_miss pf false c st x Hf). simpl.
    exists (length (iface_list st)), (new_iface pf x). split.
    + rewrite lookup_app_r by lia. by rewrite Nat.sub_diag.
    + by apply new_iface_name.
Qed.

Lemma registry_after_resolves ifaddr st ifa :
  ifa ∈ ifaddr ->
  strchr (ifa_name ifa) ":"%char = None ->
  (String.length (ifa_name ifa) < sizeof_name pf)%nat ->
  exists i r,
    iface_find_by_name (Some (ifa_name ifa)) (registry_after pf false ifaddr st) = Some i /\
    iface_list (registry_after pf false ifaddr st) !! i = Some r /\
    name r = ifa_name ifa.
Proof.
  intros Hin Hcolon Hfits. pose proof (strchr_None_base_name _ Hcolon) as Hbase.
  apply list_elem_of_split in Hin as (pre & post & ->).
  change (ifa :: post) with ([ifa] ++ post).
  rewrite app_assoc, registry_after_app, registry_after_app, registry_after_one.
  set (st1 := registry_after pf false pre st).
  destruct (step_records_name false false st1 ifa eq_refl Hcolon Hfits) as (k & r & Hk & Hn).
  set (st2 := snd (iface_update_step pf false (false, st1) ifa)) in *.
  destruct (registry_after_evolves pf false post st2 k r Hk) as (r' & Hk' & Hsame & _).
  set (st3 := registry_after pf false post st2) in *.
  destruct (iface_find_by_name (Some (ifa_name ifa)) st3) as [i|] eqn:Hfind.
  - destruct (iface_find_by_name_Some _ _ _ Hfind) as (ri & Hi & Hni).
    exists i, ri. split; [done|]. split; [done|congruence].
  - apply iface_find_by_name_None in Hfind. rewrite Forall_lookup in Hfind.
    destruct (Hfind _ _ Hk'). destruct Hsame as [Hname _]. congruence.
Qed.

(** Uniqueness of the names without colon is a matter of the names. *)
Lemma names_unique_ext l l' :
  name <$> l = name <$> l' -> names_unique l -> names_unique l'.
Proof.
  intros Hnames Huniq i j r r' Hi Hj Hn Hcolon.
  assert (exists r0, l !! i = Some r0 /\ name r0 = name r) as (r0 & Hi0 & Hn0).
  { pose proof (f_equal (fun m => m !! i) Hnames) as E. simpl in E.
    rewrite !list_lookup_fmap, Hi in E. simpl in E.
    destruct (l !! i) as [r0|]; [|done]. exists r0. split; [done|]. by injection E. }
  assert (exists r1, l !! j = Some r1 /\ name r1 = name r') as (r1 & Hj1 & Hn1).
  { pose proof (f_equal (fun m => m !! j) Hnames) as E. simpl in E.
    rewrite !list_lookup_fmap, Hj in E. simpl in E.
    destruct (l !! j) as [r1|]; [|done]. exists r1. split; [done|]. by injection E. }
  apply (Huniq i j r0 r1); congruence.
Qed.

Lemma step_names_unique refresh c st x :
  (String.length (ifa_name x) < sizeof_name pf)%nat ->
  names_unique (iface_list st) ->
  names_unique (iface_list (snd (iface_update_step pf refresh (c, st) x))).
Proof.
  intros Hfits Huniq.
  destruct (step_cases st x) as [(i & a & Hf)|[(i & Hf & Hno)|Hf]].
  - destruct (step_fill pf refresh c st x i a Hf) as (r & Hr & Ha & ->). simpl.
    apply (names_unique_ext (iface_list st)); [|done].
    rewrite list_fmap_insert. simpl. symmetry. apply list_insert_id.
    by rewrite list_lookup_fmap, Hr.
  - by rewrite (step_skip pf refresh c st x i Hf Hno).
  - rewrite (step_miss pf refresh c st x Hf). destruct refresh; simpl; [done|].
    apply iface_find_by_name_None in Hf. rewrite Forall_lookup in Hf.
    assert (forall k r, iface_list st !! k = Some r ->
              strchr (name r) ":"%char = None ->
              name r <> name (new_iface pf x)) as Hfresh.
    { intros k r Hk Hcolon He. rewrite new_iface_name in He by done.
      apply (Hf _ _ Hk). rewrite He.
      symmetry. apply strchr_None_base_name. by rewrite <- He. }
    intros i j r r' Hi Hj Hn Hcolon.
    apply lookup_app_Some in Hi as [Hi|[Hige Hi]];
      apply lookup_app_Some in Hj as [Hj|[Hjge Hj]].
    + by apply (Huniq i j r r').
    + destruct (j - length (iface_list st))%nat; simpl in Hj; [|done].
      injection Hj as <-. by destruct (Hfresh _ _ Hi Hcolon).
    + destruct (i - length (iface_list st))%nat; simpl in Hi; [|done].
      injection Hi as <-. rewrite Hn in Hcolon.
      by destruct (Hfresh _ _ Hj Hcolon).
    + destruct (i - length (iface_list st))%nat eqn:Ei; simpl in Hi; [|done].
      destruct (j - length (iface_list st))%nat eqn:Ej; simpl in Hj; [|done].
      lia.
Qed.

End Populate.

(** X9.  What a full reconcile has gone through it can look up: for a
    node of the enumeration whose name has no colon and fits the [name]
    array, [iface_find_by_name] on the table left by [iface_update]
    without [refresh], and so by [iface_init], returns a record of
    exactly that name. *)
Theorem populated_name_resolves (pf : platform) (ifaddr : list ifaddrs)
    (st : registry) (ifa : ifaddrs) :
  ifa ∈ ifaddr ->
  strchr (ifa_name ifa) ":"%char = None ->
  (String.length (ifa_name ifa) < sizeof_name pf)%nat ->
  (exists change st' i r,
     iface_update pf (Some ifaddr) false st = Returned (change, st') /\
     iface_find_by_name (Some (ifa_name ifa)) st' = Some i /\
     iface_list st' !! i = Some r /\ name r = ifa_name ifa) /\
  (exists st' i r,
     iface_init pf (Some ifaddr) st = Returned st' /\
     iface_find_by_name (Some (ifa_name ifa)) st' = Some i /\
     iface_list st' !! i = Some r /\ name r = ifa_name ifa).
Proof.
  intros Hin Hcolon Hfits. split.
  - destruct (registry_after_resolves pf ifaddr st ifa Hin Hcolon Hfits) as (i & r & H).
    unfold registry_after, run in H. unfold iface_update.
    destruct (fold_left (iface_update_step pf false) ifaddr (false, st)) as [c st'].
    by exists c, st', i, r.
  - set (empty := {| iface_list := []; num_ifaces_alloc := 1 |}).
    destruct (registry_after_resolves pf ifaddr empty ifa Hin Hcolon Hfits) as (i & r & H).
    unfold registry_after, run in H. unfold iface_init, iface_update. fold empty.
    destruct (fold_left (iface_update_step pf false) ifaddr (false, empty)) as [c st'].
    by exists st', i, r.
Qed.

(** X10.  When the names that [getifaddrs] reports fit the [name] array,
    [iface_update] never gives two records the same name without colon:
    a table free of such duplicates stays so, in either mode, and the
    table that [iface_init] leaves is free of them. *)
Theorem names_without_colon_are_unique (pf : platform) (refresh : bool)
    (ifaddr : list ifaddrs) (st : registry) :
  Forall (fun ifa => (String.length (ifa_name ifa) < sizeof_name pf)%nat) ifaddr ->
  (names_unique (iface_list st) ->
   names_unique (iface_list (registry_after pf refresh ifaddr st))) /\
  exists st',
    iface_init pf (Some ifaddr) st = Returned st' /\ names_unique (iface_list st').
Proof.
  intros Hfits. rewrite Forall_forall in Hfits.
  assert (forall refresh acc,
    names_unique (iface_list (snd acc)) ->
    names_unique (iface_list (snd (fold_left (iface_update_step pf refresh) ifaddr acc))))
    as Hkeep.
  { intros refresh' acc.
    apply (fold_registry_inv pf refresh' (fun st => names_unique (iface_list st))).
    intros c st0 x Hx. apply step_names_unique. by apply Hfits. }
  split.
  - apply (Hkeep refresh (false, st)).
  - unfold iface_init, iface_update.
    set (empty := {| iface_list := []; num_ifaces_alloc := 1 |}).
    specialize (Hkeep false (false, empty)).
    destruct (fold_left (iface_update_step pf false) ifaddr (false, empty)) as [c st'].
    exists st'. split; [done|]. apply Hkeep. intros i j r r' Hi. done.
Qed.

Section Quiet.

Variable pf : platform.

(** A loop in which no turn fills an address returns false and leaves
    the records as they were, with the new records, if any, after
    them; a refresh leaves the whole table as it was. *)
Lemma run_without_fill refresh l st :
  (forall pre x post i a,
     l = pre ++ x :: post ->
     ~ fills_address (registry_after pf refresh pre st) x i a) ->
  fst (run pf refresh l st) = false /\
  (exists ext, iface_list (registry_after pf refresh l st) = iface_list st ++ ext) /\
  (refresh = true -> registry_after pf refresh l st = st).
Proof.
  induction l as [|x l IH] using rev_ind; intros Hno.
  - split; [done|]. split; [exists []; by rewrite app_nil_r|done].
  - destruct IH as (Hc & (ext & Hext) & Href).
    { intros pre y post i a -> Hf.
      apply (Hno pre y (post ++ [x]) i a); [by rewrite <- app_assoc|done]. }
    unfold registry_after in *. rewrite run_snoc.
    destruct (run pf refresh l st) as [c st1] eqn:Hrun. cbn [fst snd] in *. subst c.
    destruct (step_cases st1 x) as [(i & a & Hf)|[(i & Hf & Hskip)|Hf]].
    + destruct (Hno l x [] i a eq_refl). by rewrite Hrun.
    + rewrite (step_skip pf refresh false st1 x i Hf Hskip). cbn [fst snd].
      split; [done|]. split; [by exists ext|done].
    + rewrite (step_miss pf refresh false st1 x Hf). destruct refresh; cbn [fst snd].
      * split; [done|]. split; [by exists ext|done].
      * split; [done|]. split; [|done]. simpl.
        exists (ext ++ [new_iface pf x]). by rewrite Hext, app_assoc.
Qed.

(** In a refresh a name resolves to the same slot before, during and
    after: the lookup reads names and virtual interfaces only. *)
Lemma find_loop_ext nm l l' k cand :
  Forall2 (fun r r' => name r' = name r /\ vif r' = vif r) l l' ->
  find_loop nm l' k cand = find_loop nm l k cand.
Proof.
  intros H. revert k cand. induction H as [|r r' l l' [Hn Hv] _ IH]; intros k cand; simpl.
  - done.
  - rewrite Hn, Hv. destruct (strcmp nm (name r) =? 0); [|apply IH].
    destruct (0 <=? vif r); [done|apply IH].
Qed.

Lemma refresh_find_stable l st s :
  iface_find_by_name s (registry_after pf true l st) = iface_find_by_name s st.
Proof.
  destruct s as [s|]; [|done]. rewrite !iface_find_by_name_unfold.
  apply find_loop_ext. apply Forall2_same_length_lookup_2.
  - pose proof (fold_length pf true l (false, st)) as [_ Hlen].
    destruct (Hlen eq_refl) as [Hn _]. unfold num_ifaces in Hn. cbn [snd] in Hn.
    symmetry. exact Hn.
  - intros i r r' Hr Hr'.
    destruct (registry_after_evolves pf true l st i r Hr) as (r'' & Hr'' & Hsame & _).
    assert (r'' = r') as -> by congruence.
    unfold same_but_addr in Hsame. tauto.
Qed.

(** After a refresh no node that carries an address other than 0.0.0.0
    finds a record without address. *)
Lemma refresh_leaves_no_fill l st x i a :
  x ∈ l -> inet_addr_of x <> Some 0 ->
  ~ fills_address (registry_after pf true l st) x i a.
Proof.
  intros Hin Hnz (Hfind & (r & Hr & Hzero) & Hinet).
  apply list_elem_of_split in Hin as (pre & post & ->).
  change (x :: post) with ([x] ++ post) in *.
  rewrite app_assoc, registry_after_app in Hr.
  rewrite refresh_find_stable in Hfind.
  set (st1 := registry_after pf true pre st) in *.
  assert (iface_find_by_name (Some (ifa_name x)) st1 = Some i) as Hfind1.
  { unfold st1. by rewrite refresh_find_stable. }
  rewrite registry_after_app, registry_after_one in Hr.
  set (st2 := snd (iface_update_step pf true (false, st1) x)) in *.
  assert (exists r2, iface_list st2 !! i = Some r2 /\ inaddr r2 <> 0) as (r2 & Hr2 & Hnz2).
  { destruct (iface_find_by_name_Some _ _ _ Hfind1) as (r1 & Hr1 & _).
    destruct (step_cases st1 x) as [(k & b & Hf)|[(k & Hf & Hskip)|Hf]].
    - destruct (step_fill pf true false st1 x k b Hf) as (rk & Hrk & _ & E).
      destruct Hf as (Hfk & _ & Hb). assert (k = i) as -> by congruence.
      unfold st2. rewrite E. simpl. exists (set_inaddr rk b). split.
      + apply list_lookup_insert_eq. by eapply lookup_lt_Some.
      + simpl. congruence.
    - assert (k = i) as -> by congruence.
      unfold st2. rewrite (step_skip pf true false st1 x i Hf Hskip). simpl.
      exists r1. split; [done|]. intros Hz. apply (Hskip a).
      split; [done|]. split; [by exists r1|done].
    - congruence. }
  destruct (registry_after_evolves pf true post st2 i r2 Hr2) as (r' & Hr' & _ & Haddr).
  assert (r' = r) as -> by (unfold st2, st1 in Hr'; congruence).
  destruct Haddr as [E|[E _]]; congruence.
Qed.

End Quiet.

(** X11.  When a refresh returns false the table is exactly as it was.
    When a full reconcile returns false the records it found are
    exactly as they were, and what it did, if anything, was to append
    records after them. *)
Theorem no_change_reported_means_no_record_changed (pf : platform)
    (refresh : bool) (ifaddr : list ifaddrs) (st : registry) :
  exists change st',
    iface_update pf (Some ifaddr) refresh st = Returned (change, st') /\
    (change = false ->
     (exists ext, iface_list st' = iface_list st ++ ext) /\
     (refresh = true -> st' = st)).
Proof.
  pose proof (run_change pf refresh ifaddr st) as Hc.
  pose proof (run_without_fill pf refresh ifaddr st) as Hq.
  unfold iface_update, registry_after, run in *.
  destruct (fold_left (iface_update_step pf refresh) ifaddr (false, st)) as [c st'] eqn:E.
  exists c, st'. split; [done|]. intros ->. cbn [fst snd] in *.
  apply Hq. intros pre x post i a -> Hf.
  assert (false = true); [|done]. apply Hc. by exists pre, x, post, i, a.
Qed.

Section Settled.

Variable pf : platform.

(** A refresh of a table in which no node finds a record to fill
    leaves the table and returns false. *)
Lemma refresh_fixed_point l st :
  (forall x i a, x ∈ l -> ~ fills_address st x i a) ->
  run pf true l st = (false, st).
Proof.
  induction l as [|x l IH] using rev_ind; intros Hno; [done|].
  rewrite run_snoc, IH.
  - destruct (step_cases st x) as [(i & a & Hf)|[(i & Hf & Hskip)|Hf]].
    + destruct (Hno x i a); [|done]. apply elem_of_app. right. by left.
    + by rewrite (step_skip pf true false st x i Hf Hskip).
    + by rewrite (step_miss pf true false st x Hf).
  - intros y i a Hy. apply Hno. apply elem_of_app. by left.
Qed.

End Settled.

(** X12.  A refresh settles: when no node of the enumeration carries
    the address 0.0.0.0, a second refresh with the same enumeration
    returns false and leaves the table that the first one left. *)
Theorem refresh_twice_is_refresh_once (pf : platform) (ifaddr : list ifaddrs)
    (st : registry) :
  Forall (fun ifa => inet_addr_of ifa <> Some 0) ifaddr ->
  exists change st',
    iface_update pf (Some ifaddr) true st = Returned (change, st') /\
    iface_update pf (Some ifaddr) true st' = Returned (false, st').
Proof.
  intros Hnz. rewrite Forall_forall in Hnz.
  pose proof (refresh_leaves_no_fill pf ifaddr st) as Hno.
  unfold iface_update. unfold registry_after, run in Hno.
  destruct (fold_left (iface_update_step pf true) ifaddr (false, st)) as [c st'] eqn:E.
  cbn [snd] in Hno. exists c, st'. split; [done|].
  pose proof (refresh_fixed_point pf ifaddr st') as Hfix. unfold run in Hfix.
  rewrite Hfix; [done|].
  intros x i a Hx. apply Hno; [done|]. by apply Hnz.
Qed.

Section NewRecords.

Variable pf : platform.

(** What holds of the records created for the nodes, and survives a
    change of address, holds of every record from slot [n] on, if it
    held of those before. *)
Lemma fold_new_records refresh (P : iface -> Prop) n l acc :
  (forall r a, P r -> P (set_inaddr r a)) ->
  (forall x, x ∈ l -> P (new_iface pf x)) ->
  (forall i r, (n <= i)%nat -> iface_list (snd acc) !! i = Some r -> P r) ->
  forall i r, (n <= i)%nat ->
    iface_list (snd (fold_left (iface_update_step pf refresh) l acc)) !! i = Some r -> P r.
Proof.
  intros Hset Hnew.
  apply (fold_registry_inv pf refresh
           (fun st => forall i r, (n <= i)%nat -> iface_list st !! i = Some r -> P r)).
  intros c st x Hx Hst.
  destruct (step_cases st x) as [(k & a & Hf)|[(k & Hf & Hskip)|Hf]].
  - destruct (step_fill pf refresh c st x k a Hf) as (rk & Hrk & _ & ->). simpl.
    intros i r Hi Hr. destruct (decide (i = k)) as [->|Hne].
    + rewrite list_lookup_insert_eq in Hr by (by eapply lookup_lt_Some).
      injection Hr as <-. apply Hset. by apply (Hst k).
    + rewrite list_lookup_insert_ne in Hr by done. by apply (Hst i).
  - by rewrite (step_skip pf refresh c st x k Hf Hskip).
  - rewrite (step_miss pf refresh c st x Hf). destruct refresh; simpl; [done|].
    intros i r Hi Hr. apply lookup_app_Some in Hr as [Hr|[_ Hr]]; [by apply (Hst i)|].
    destruct (i - length (iface_list st))%nat; simpl in Hr; [|done].
    injection Hr as <-. by apply Hnew.
Qed.

End NewRecords.

Section Growth.

Variable pf : platform.

(** The loop adds at most one record for each node. *)
Lemma fold_length_upper refresh l acc :
  (num_ifaces (snd acc)
   <= num_ifaces (snd (fold_left (iface_update_step pf refresh) l acc))
   <= num_ifaces (snd acc) + length l)%nat.
Proof.
  revert acc. induction l as [|x l IH]; intros [c st]; cbn [fold_left]; [simpl; lia|].
  pose proof (step_length pf refresh c st x) as [Hlen _].
  specialize (IH (iface_update_step pf refresh (c, st) x)). simpl in *. lia.
Qed.

End Growth.

(** X13.  [iface_update], in either mode, moves and removes no record:
    every record stays in its slot with its name, flags, index, [vif],
    [mif], discovery flag and threshold, and with its address when that
    is not zero.  The records it adds come after those, at most one
    for each node of the enumeration and each created for such a node,
    with [vif = -1] and [mif = -1]. *)
Theorem reconcile_keeps_records_in_place (pf : platform) (refresh : bool)
    (ifaddr : list ifaddrs) (st : registry) :
  exists change st',
    iface_update pf (Some ifaddr) refresh st = Returned (change, st') /\
    (num_ifaces st <= num_ifaces st' <= num_ifaces st + length ifaddr)%nat /\
    (forall i r, iface_list st !! i = Some r ->
       exists r', iface_list st' !! i = Some r' /\ same_but_addr r r' /\
                  (inaddr r <> 0 -> inaddr r' = inaddr r)) /\
    (forall i r', (num_ifaces st <= i)%nat -> iface_list st' !! i = Some r' ->
       vif r' = -1 /\ mif r' = -1 /\
       exists ifa a, ifa ∈ ifaddr /\ r' = set_inaddr (new_iface pf ifa) a).
Proof.
  unfold iface_update.
  pose proof (fold_length_upper pf refresh ifaddr (false, st)) as Hlen.
  pose proof (fold_evolves pf refresh ifaddr (false, st)) as Hev.
  pose proof (fold_new_records pf refresh
    (fun r => exists ifa a, ifa ∈ ifaddr /\ r = set_inaddr (new_iface pf ifa) a)
    (num_ifaces st) ifaddr (false, st)) as Hnew.
  destruct (fold_left (iface_update_step pf refresh) ifaddr (false, st)) as [c st'].
  cbn [snd] in *. exists c, st'. split; [done|]. split; [done|]. split.
  - intros i r Hr. destruct (Hev i r Hr) as (r' & Hr' & Hsame & Haddr).
    exists r'. split; [done|]. split; [done|].
    intros Hnz. destruct Haddr as [|[Hz _]]; [done|congruence].
  - intros i r' Hi Hr'.
    destruct (Hnew) with (i := i) (r := r') as (ifa & a & Hin & ->); [| | |done|done|].
    + intros r a (ifa & a0 & Hin & ->). by exists ifa, a.
    + intros x Hx. exists x, (inaddr (new_iface pf x)). by split.
    + intros j r Hj Hr. apply lookup_lt_Some in Hr. unfold num_ifaces in Hj. lia.
    + split; [done|]. split; [done|]. by exists ifa, a.
Qed.

(** X14.  The pattern ["+"] matches every interface: from any iterator
    state [iface_match_by_name] returns the record in the slot of the
    iterator, whatever its name, and NULL only past the end of the
    table. *)
Theorem lone_plus_matches_every_record (state : ifmatch) (st : registry) :
  iface_match_by_name (Some "+") state st =
    if (iter state <? num_ifaces st)%nat
    then (Some (iter state),
          {| iter := S (iter state); match_count := match_count state + 1 |})
    else (None, state).
Proof.
  unfold iface_match_by_name, num_ifaces.
  destruct (Nat.ltb_spec (iter state) (length (iface_list st))) as [Hlt|Hge].
  - destruct (lookup_lt_is_Some_2 _ _ Hlt) as [r Hr].
    rewrite (drop_S _ _ _ Hr). reflexivity.
  - by rewrite drop_ge.
Qed.

Section IndexLoopResult.

Variable get : option iface -> Z.

(** What a call of the loop over virtual interfaces returns. *)
Lemma match_index_loop_result pat st state found :
  let '(v, state', found') := match_index_loop get (Some pat) st state found in
  (v = -1 /\ match_count state' = match_count state /\ found' = found /\
   (iter state <= iter state')%nat /\
   forall j r, (iter state <= j)%nat -> iface_list st !! j = Some r ->
               name_matches pat r = true -> get (Some r) < 0)
  \/
  (exists i r,
     iface_list st !! i = Some r /\ v = get (Some r) /\ 0 <= v /\
     name_matches pat r = true /\ (iter state <= i)%nat /\
     state' = {| iter := S i; match_count := match_count state + 1 |} /\
     found' = match found with Some _ => Some (Some i) | None => None end).
Proof.
  destruct (first_match_dec (fun r => name_matches pat r && (0 <=? get (Some r)))
              (iface_list st) (iter state))
    as [(i & r & Hr & Hle & HP & Hfirst)|Hnone].
  - apply andb_true_iff in HP as [Hm Hv]. apply Z.leb_le in Hv.
    rewrite (match_index_loop_found get pat st state found i r Hr Hle Hm Hv).
    + right. by exists i, r.
    + intros j r' Hj Hr' Hm'. specialize (Hfirst j r' Hj Hr').
      rewrite Hm' in Hfirst. simpl in Hfirst. by apply Z.leb_gt.
  - assert (forall j r, (iter state <= j)%nat -> iface_list st !! j = Some r ->
                        name_matches pat r = true -> get (Some r) < 0) as Hneg.
    { intros j r Hj Hr Hm. specialize (Hnone j r Hj Hr).
      rewrite Hm in Hnone. simpl in Hnone. by apply Z.leb_gt. }
    rewrite (match_index_loop_none get pat st state found Hneg).
    left. simpl. split_and!; [done|done|done|lia|done].
Qed.

End IndexLoopResult.

(** X15.  A call of [iface_match_vif_by_name] either returns -1, with
    the count of matches and the variable behind [found] as they were,
    there being no record from the iterator on that matches by name and
    has a [vif]; or it returns the [vif], not negative, of a record
    that matches by name, with the iterator one past that record, the
    count one higher, and the record behind [found] when asked for.  It
    returns no other value.  The same holds of
    [iface_match_mif_by_name] with the [mif] that [iface_get_mif]
    reads. *)
Theorem match_vif_by_name_result (pf : platform) (pat : string)
    (state : ifmatch) (found : option (option nat)) (st : registry) :
  (let '(v, state', found') := iface_match_vif_by_name (Some pat) state found st in
   (v = -1 /\ match_count state' = match_count state /\ found' = found /\
    (iter state <= iter state')%nat /\
    forall j r, (iter state <= j)%nat -> iface_list st !! j = Some r ->
                name_matches pat r = true -> vif r < 0)
   \/
   (exists i r,
      iface_list st !! i = Some r /\ v = vif r /\ 0 <= v /\
      name_matches pat r = true /\ (iter state <= i)%nat /\
      state' = {| iter := S i; match_count := match_count state + 1 |} /\
      found' = match found with Some _ => Some (Some i) | None => None end)) /\
  (let '(v, state', found') := iface_match_mif_by_name pf (Some pat) state found st in
   (v = -1 /\ match_count state' = match_count state /\ found' = found /\
    (iter state <= iter state')%nat /\
    forall j r, (iter state <= j)%nat -> iface_list st !! j = Some r ->
                name_matches pat r = true -> iface_get_mif pf (Some r) < 0)
   \/
   (exists i r,
      iface_list st !! i = Some r /\ v = iface_get_mif pf (Some r) /\ 0 <= v /\
      name_matches pat r = true /\ (iter state <= i)%nat /\
      state' = {| iter := S i; match_count := match_count state + 1 |} /\
      found' = match found with Some _ => Some (Some i) | None => None end)).
Proof.
  split.
  - apply (match_index_loop_result iface_get_vif).
  - apply (match_index_loop_result (iface_get_mif pf)).
Qed.

(** X16.  [ifname_is_wildcard] is false for NULL and for the empty
    string, which it does not index, and true of a string exactly when
    its last character is a plus; a plus elsewhere does not count. *)
Theorem ifname_is_wildcard_spec :
  ifname_is_wildcard None = false /\
  ifname_is_wildcard (Some "") = false /\
  (forall s, ifname_is_wildcard (Some s) = true <-> last_char s = Some "+"%char) /\
  (forall s c, c <> "+"%char -> ifname_is_wildcard (Some (s +:+ String c "")) = false).
Proof.
  split; [done|]. split; [done|]. split.
  - intros s. rewrite ifname_is_wildcard_last. apply bool_decide_eq_true.
  - intros s c Hc. rewrite ifname_is_wildcard_last, last_char_snoc.
    apply bool_decide_eq_false_2. congruence.
Qed.

Section SuccessiveCalls.

Lemma match_loop_slots s rest state :
  match_loop s (match_len s) rest state =
    match matching_slots s rest (iter state) with
    | [] => (None, {| iter := iter state + length rest;
                      match_count := match_count state |})
    | j :: _ => (Some j, {| iter := S j; match_count := match_count state + 1 |})
    end.
Proof.
  revert state. induction rest as [|r rest IH]; intros state; simpl.
  - rewrite Nat.add_0_r. by destruct state.
  - unfold name_matches. destruct (strncmp s (name r) (match_len s) =? 0); [done|].
    rewrite IH. simpl. destruct (matching_slots s rest (S (iter state))); [|done].
    do 2 f_equal. lia.
Qed.

Lemma matching_slots_rest s rest k j ms :
  matching_slots s rest k = j :: ms ->
  (k <= j)%nat /\ matching_slots s (drop (S j - k) rest) (S j) = ms.
Proof.
  revert k. induction rest as [|r rest IH]; intros k; simpl; [done|].
  destruct (name_matches s r).
  - intros [= <- <-]. split; [lia|].
    by replace (S k - k)%nat with 1%nat by lia.
  - intros H. apply IH in H as [Hle H]. split; [lia|].
    by replace (S j - k)%nat with (S (S j - S k)) by lia.
Qed.

Lemma match_calls_slots s st n state :
  let ms := matching_slots s (drop (iter state) (iface_list st)) (iter state) in
  fst (match_calls (Some s) st n state) =
    (Some <$> take n ms) ++ replicate (n - length ms) None /\
  match_count (snd (match_calls (Some s) st n state)) =
    match_count state + Z.of_nat (Nat.min n (length ms)).
Proof.
  cbv zeta. revert state. induction n as [|n IH]; intros state.
  - simpl. split; [done|lia].
  - cbn [match_calls]. unfold iface_match_by_name. rewrite match_loop_slots.
    destruct (matching_slots s (drop (iter state) (iface_list st)) (iter state))
      as [|j ms] eqn:Hms.
    + specialize (IH {| iter := iter state + length (drop (iter state) (iface_list st));
                        match_count := match_count state |}).
      cbn [iter match_count] in IH.
      rewrite (drop_ge (iface_list st)
                 (iter state + length (drop (iter state) (iface_list st)))) in IH
        by (rewrite length_drop; lia).
      destruct (match_calls (Some s) st n _) as [rs state'].
      cbn [fst snd matching_slots] in *. destruct IH as [-> ->].
      rewrite take_nil. simpl. split; [by rewrite Nat.sub_0_r|lia].
    + apply matching_slots_rest in Hms as [Hle Hms].
      rewrite drop_drop in Hms.
      replace (iter state + (S j - iter state))%nat with (S j) in Hms by lia.
      specialize (IH {| iter := S j; match_count := match_count state + 1 |}).
      cbn [iter match_count] in IH. rewrite Hms in IH.
      destruct (match_calls (Some s) st n _) as [rs state'].
      cbn [fst snd] in *. destruct IH as [-> ->].
      split; [done|]. simpl. lia.
Qed.

End SuccessiveCalls.

(** X17.  Calls of [iface_match_by_name] in a row with one pattern and
    one iterator state return the records from the iterator on that
    match the pattern, each once and in table order, and NULL from then
    on; the count of matches grows by the number of records returned. *)
Theorem successive_matches_enumerate (s : string) (st : registry) (n : nat)
    (state : ifmatch) :
  fst (match_calls (Some s) st n state) =
    (Some <$> take n (matching_slots s (drop (iter state) (iface_list st)) (iter state)))
    ++ replicate
         (n - length (matching_slots s (drop (iter state) (iface_list st)) (iter state)))
         None /\
  match_count (snd (match_calls (Some s) st n state)) =
    match_count state +
    Z.of_nat (Nat.min n
      (length (matching_slots s (drop (iter state) (iface_list st)) (iter state)))).
Proof. apply match_calls_slots. Qed.

(** The further properties at work on the scenarios. *)

Lemma populated_name_resolves_for_eth0 :
  exists st' i r,
    iface_init Scenario.linux
      (Some [Scenario.node "lo" None; Scenario.node "eth0" (Some 167772165)])
      Scenario.eth_wlan = Returned st' /\
    iface_find_by_name (Some "eth0") st' = Some i /\
    iface_list st' !! i = Some r /\ name r = "eth0".
Proof.
  apply (populated_name_resolves Scenario.linux
           [Scenario.node "lo" None; Scenario.node "eth0" (Some 167772165)]
           Scenario.eth_wlan (Scenario.node "eth0" (Some 167772165))).
  - apply list_elem_of_In. simpl. tauto.
  - reflexivity.
  - simpl. lia.
Defined.

Lemma names_unique_after_populate :
  exists st',
    iface_init Scenario.linux
      (Some [Scenario.node "eth0" None; Scenario.node "eth0" (Some 167772165);
             Scenario.node "eth0:1" (Some 167772166)])
      Scenario.eth_wlan = Returned st' /\
    names_unique (iface_list st').
Proof.
  apply (names_without_colon_are_unique Scenario.linux false
           [Scenario.node "eth0" None; Scenario.node "eth0" (Some 167772165);
            Scenario.node "eth0:1" (Some 167772166)]
           Scenario.eth_wlan).
  repeat constructor.
Defined.

Lemma refresh_settles_on_eth_wlan :
  exists change st',
    iface_update Scenario.linux
      (Some [Scenario.node "eth0" (Some 167772165); Scenario.node "eth1" None])
      true Scenario.eth_wlan = Returned (change, st') /\
    iface_update Scenario.linux
      (Some [Scenario.node "eth0" (Some 167772165); Scenario.node "eth1" None])
      true st' = Returned (false, st').
Proof.
  apply (refresh_twice_is_refresh_once Scenario.linux
           [Scenario.node "eth0" (Some 167772165); Scenario.node "eth1" None]
           Scenario.eth_wlan).
  repeat constructor; discriminate.
Defined.

(** X18.  A record carries the interface index that [if_nametoindex]
    gives for the name stored in it: [iface_update] keeps this, and it
    holds after [iface_init].  Hence, for a node of the enumeration
    whose name has no colon and fits the [name] array, [iface_find] on
    the table left by [iface_init] finds a record for the index of that
    name. *)
Theorem populated_index_resolves (pf : platform) (ifaddr : list ifaddrs)
    (st : registry) (ifa : ifaddrs) :
  ifa ∈ ifaddr ->
  strchr (ifa_name ifa) ":"%char = None ->
  (String.length (ifa_name ifa) < sizeof_name pf)%nat ->
  exists st',
    iface_init pf (Some ifaddr) st = Returned st' /\
    Forall (fun r => ifindex r = if_nametoindex pf (name r)) (iface_list st') /\
    exists i r,
      iface_find (if_nametoindex pf (ifa_name ifa)) st' = Some i /\
      iface_list st' !! i = Some r /\
      ifindex r = if_nametoindex pf (ifa_name ifa).
Proof.
  intros Hin Hcolon Hfits.
  set (empty := {| iface_list := []; num_ifaces_alloc := 1 |}).
  destruct (registry_after_resolves pf ifaddr empty ifa Hin Hcolon Hfits)
    as (k & rk & _ & Hk & Hnk).
  pose proof (fold_Forall pf false (fun r => ifindex r = if_nametoindex pf (name r))
                ifaddr (false, empty)) as Hidx.
  unfold registry_after, run in Hk. unfold iface_init, iface_update. fold empty.
  destruct (fold_left (iface_update_step pf false) ifaddr (false, empty)) as [c st'].
  cbn [snd] in *. exists st'. split; [done|].
  assert (Forall (fun r => ifindex r = if_nametoindex pf (name r)) (iface_list st')) as Hall.
  { apply Hidx; [done|done|constructor]. }
  split; [done|].
  unfold iface_find.
  pose proof (iface_find_loop_spec (if_nametoindex pf (ifa_name ifa)) (iface_list st') 0)
    as Hfind.
  destruct (iface_find_loop (if_nametoindex pf (ifa_name ifa)) (iface_list st') 0) as [i|].
  - destruct Hfind as (j & r & -> & Hr & Hri & _). by exists (0 + j)%nat, r.
  - rewrite Forall_lookup in Hfind, Hall. destruct (Hfind _ _ Hk).
    rewrite (Hall _ _ Hk). by rewrite Hnk.
Qed.

Lemma populated_index_resolves_for_eth0 :
  exists st',
    iface_init Scenario.linux
      (Some [Scenario.node "lo" None; Scenario.node "eth0" (Some 167772165)])
      Scenario.eth_wlan = Returned st' /\
    Forall (fun r => ifindex r = if_nametoindex Scenario.linux (name r)) (iface_list st') /\
    exists i r,
      iface_find (if_nametoindex Scenario.linux "eth0") st' = Some i /\
      iface_list st' !! i = Some r /\
      ifindex r = if_nametoindex Scenario.linux "eth0".
Proof.
  apply (populated_index_resolves Scenario.linux
           [Scenario.node "lo" None; Scenario.node "eth0" (Some 167772165)]
           Scenario.eth_wlan (Scenario.node "eth0" (Some 167772165))).
  - apply list_elem_of_In. simpl. tauto.
  - reflexivity.
  - simpl. lia.
Defined.

(** X19.  The two ways to resolve a plain name agree on a table without
    duplicates: for a name without colon and without plus at its end
    (and shorter than [UINT_MAX] characters), the first call of
    [iface_match_by_name] on a fresh iterator returns the record that
    [iface_find_by_name] returns, or NULL as it does, when no two
    records of the table share a name without colon. *)
Theorem plain_name_match_agrees_with_find (s : string) (st : registry) :
  strchr s ":"%char = None ->
  last_char s <> Some "+"%char ->
  strlen s < UINT_MAX ->
  names_unique (iface_list st) ->
  fst (iface_match_by_name (Some s) iface_match_init st) =
    iface_find_by_name (Some s) st.
Proof.
  intros Hcolon Hlast Hlen Huniq.
  pose proof (strchr_None_base_name s Hcolon) as Hbase.
  destruct (iface_find_by_name (Some s) st) as [i|] eqn:Hfind.
  - destruct (iface_find_by_name_Some _ _ _ Hfind) as (r & Hr & Hn).
    rewrite Hbase in Hn.
    destruct (first_match_dec (name_matches s) (iface_list st) (iter iface_match_init))
      as [(k & rk & Hk & Hkle & Hkm & Hkfirst)|Hnone].
    + rewrite (iface_match_by_name_first s iface_match_init st k rk Hk Hkle Hkm Hkfirst).
      simpl. f_equal.
      rewrite name_matches_exact in Hkm by done. apply bool_decide_eq_true_1 in Hkm.
      apply (Huniq k i rk r); congruence.
    + specialize (Hnone i r ltac:(simpl; lia) Hr).
      rewrite name_matches_exact in Hnone by done.
      by apply bool_decide_eq_false_1 in Hnone.
  - apply iface_find_by_name_None in Hfind. rewrite Hbase, Forall_lookup in Hfind.
    rewrite iface_match_by_name_none; [done|].
    intros j r _ Hr. rewrite name_matches_exact by done.
    apply bool_decide_eq_false_2. by apply (Hfind j).
Qed.

Lemma plain_name_on_eth_wlan :
  fst (iface_match_by_name (Some "eth1") iface_match_init Scenario.eth_wlan) =
    iface_find_by_name (Some "eth1") Scenario.eth_wlan.
Proof.
  apply (plain_name_match_agrees_with_find "eth1" Scenario.eth_wlan).
  - reflexivity.
  - discriminate.
  - reflexivity.
  - intros [|[|[|i]]] [|[|[|j]]] r r' Hi Hj Hn _; simpl in Hi, Hj; try done;
      injection Hi as <-; injection Hj as <-; discriminate Hn.
Defined.
